(** * dmx-player: recording, loading and loop playback of Art-Net DMX data

    A shallow embedding of the TypeScript sources of the player:

    - [src/index.ts] (class [DMXRecorder], the version [src/player.ts] runs):
      the inbound-packet listener, the recorder ([record], [close]), the
      loader ([handleFileData]) and the packet-by-packet playback [loop];
    - the earlier frame-based iteration of the same class (prepareFrames,
      processFrame, interpolateFrames, processAndDelay and its own loop),
      modelled in [Module Frames].

    Conventions.  JavaScript numbers that the code only ever uses as
    integers (universes, channel values, millisecond clocks) are [Z].  A
    number that need not be an integer is the rational [Q] it denotes.  The
    arithmetic on channel values, [value * fadeFactor] of the fades to and
    from black and [value1 + (value2 - value1) * (step / totalSteps)] of the
    cross-fade, is computed as JavaScript computes it, in binary64: every
    operation of [Module Double] returns the exact result rounded to the
    nearest double.  The halves [totalPackets / 2] and [framesForFade / 2]
    are exact in binary64 and are plain rationals, as is the frame duration
    [1000 / fps].  Strings are Rocq strings read as sequences of code units
    below 256.  The gzip layer is the identity: a recording file is the text
    that was written into the gzip stream. *)

From Stdlib Require Import ZArith QArith Qround Qminmax Qabs Qpower Qreduction.
From Stdlib Require Import List String Ascii Bool.
From Stdlib Require Import Lia Lqa.
From Stdlib Require SpecFloat.
From Stdlib Require Import DecimalString DecimalZ.
From Stdlib Require DecimalPos DecimalFacts.
From Stdlib Require Import Sorted Permutation.
Import ListNotations.

Local Open Scope string_scope.
Local Open Scope Z_scope.

(** ** Results of fallible code *)

Inductive error : Type :=
| SyntaxError   (* JSON.parse on a text that is not JSON *)
| TypeError     (* property access on undefined, call of a non-function *)
| IllTyped.     (* a loaded record that is not of the Packet shape *)

Inductive result (A : Type) : Type :=
| Ok (a : A)
| Throw (e : error).
Arguments Ok {A} a.
Arguments Throw {A} e.

Definition bind {A B : Type} (r : result A) (k : A -> result B) : result B :=
  match r with
  | Ok a => k a
  | Throw e => Throw e
  end.

Notation "x <- r ;; k" := (bind r (fun x => k))
  (at level 61, r at next level, right associativity).

Fixpoint mapM {A B : Type} (f : A -> result B) (l : list A) : result (list B) :=
  match l with
  | [] => Ok []
  | a :: l' => b <- f a ;; bs <- mapM f l' ;; Ok (b :: bs)
  end.

(** ** JavaScript helpers *)

Module JS.

(** [a % b] on integers: the sign follows the dividend. *)
Definition rem (a b : Z) : Z := Z.rem a b.

(** [Math.floor(a / b)] for integers [a] and [b > 0]. *)
Definition floor_div (a b : Z) : Z := a / b.

(** [Math.round]: the nearest integer, halves upwards. *)
Definition Math_round (x : Q) : Z := Qfloor (x + (1 # 2))%Q.

(** Storing a number into a [Buffer] (or any Uint8Array) keeps it modulo 256. *)
Definition to_uint8 (v : Z) : Z := v mod 256.

(** [arr[i]] for a number [i]: only an integer in range names an element,
    anything else (a fraction, a negative number, an index past the end)
    reads [undefined]. *)
Definition index {A : Type} (arr : list A) (i : Q) : option A :=
  if Qeq_bool (inject_Z (Qfloor i)) i && (0 <=? Qfloor i)
  then nth_error arr (Z.to_nat (Qfloor i))
  else None.

(** [arr.slice(start, end)] with integer arguments (a fractional argument
    is truncated towards zero by the caller, as ToIntegerOrInfinity does). *)
Definition slice {A : Type} (arr : list A) (start stop : Z) : list A :=
  let len := Z.of_nat (List.length arr) in
  let k := if start <? 0 then Z.max (len + start) 0 else Z.min start len in
  let final := if stop <? 0 then Z.max (len + stop) 0 else Z.min stop len in
  firstn (Z.to_nat (final - k)) (skipn (Z.to_nat k) arr).

(** ToIntegerOrInfinity on a finite number: the fraction is dropped. *)
Definition trunc (x : Q) : Z := Z.quot (Qnum x) (Zpos (Qden x)).

(** [arr.slice(start)]. *)
Definition slice_from {A : Type} (arr : list A) (start : Z) : list A :=
  slice arr start (Z.of_nat (List.length arr)).

(** [arr.find(pred)]. *)
Definition find {A : Type} (pred : A -> bool) (arr : list A) : option A :=
  List.find pred arr.

(** [arr.sort(comparefn)].  Node's sort (V8's TimSort) is a stable
    comparison sort that consults [comparefn(x, y)] only through the test
    [comparefn(x, y) < 0]; on a list it computes what this straight
    insertion sort computes: each element is put in front of the first
    element it is smaller than. *)
Section Sort.
Context {A : Type} (comparefn : A -> A -> Z).

Fixpoint insert (x : A) (sorted : list A) : list A :=
  match sorted with
  | [] => [x]
  | y :: rest =>
      if comparefn x y <? 0 then x :: y :: rest else y :: insert x rest
  end.

Definition sort (arr : list A) : list A :=
  fold_left (fun acc x => insert x acc) arr [].
End Sort.

(** [arr[i] = x] on an array that may have holes ([None] reads as
    undefined): an index in range overwrites, an index past the end grows
    the array and leaves holes in between, a negative index sets a property
    and leaves the elements alone. *)
Definition array_set {A : Type} (arr : list (option A)) (i : Z) (x : A)
  : list (option A) :=
  if i <? 0 then arr
  else
    let n := Z.to_nat i in
    if (n <? List.length arr)%nat
    then firstn n arr ++ Some x :: skipn (S n) arr
    else arr ++ repeat None (n - List.length arr) ++ [Some x].

(** [arr[i % arr.length]] for a natural [i]; with no elements the index is
    NaN and the read is undefined. *)
Definition index_mod {A : Type} (arr : list A) (i : nat) : option A :=
  match List.length arr with
  | O => None
  | n => nth_error arr (i mod n)
  end.

(** [a < b] on strings: code unit by code unit. *)
Definition string_lt (a b : string) : bool := String.ltb a b.

(** The number of distinct elements of a [Set] built from strings. *)
Definition Set_size (keys : list string) : nat :=
  List.length (nodup string_dec keys).

(** A number in a template string or a string concatenation. *)
Definition num_to_string (z : Z) : string := NilZero.string_of_int (Z.to_int z).

End JS.

(** ** Binary floating point

    A finite JavaScript number is a binary64 number: zero or [m * 2^e] with
    a significand [m] of 53 bits.  [+], [-], [*] and [/] return the exact
    result rounded to the nearest such number, a tie to the one with the
    even significand.  [Double] computes on the rationals that the numbers
    denote.  The range of the exponent is not modelled: the numbers of the
    player (channel values, indices, frame counts and their quotients) lie
    far inside it.  NaN and the infinities are left to the callers, which
    meet them only on a missing operand or a zero divisor. *)

Module Double.

Definition pow2 (k : Z) : Q := Qpower 2 k.

(** The exponent [e] of a positive [x]: [2^52 <= x / 2^e < 2^53].  The
    logarithms of numerator and denominator give it within one, the
    comparison decides. *)
Definition exponent (x : Q) : Z :=
  let l := Z.log2 (Qnum x) - Z.log2 (Zpos (Qden x)) in
  if Qle_bool (pow2 l) x then l - 52 else l - 53.

(** The nearest integer, a tie to the even one. *)
Definition nearest_even (y : Q) : Z :=
  let f := Qfloor y in
  match (y - inject_Z f ?= 1 # 2)%Q with
  | Lt => f
  | Gt => f + 1
  | Eq => if Z.even f then f else f + 1
  end.

Definition round_positive (x : Q) : Q :=
  let e := exponent x in
  (inject_Z (nearest_even (x * pow2 (- e))) * pow2 e)%Q.

(** The double nearest to [x]. *)
Definition round (x : Q) : Q :=
  let x := Qred x in
  match Qnum x with
  | Z0 => 0%Q
  | Zpos _ => round_positive x
  | Zneg _ => (- round_positive (- x))%Q
  end.

(** An integer as a JavaScript number. *)
Definition of_Z (z : Z) : Q := round (inject_Z z).

Definition add (x y : Q) : Q := round (x + y).
Definition sub (x y : Q) : Q := round (x - y).
Definition mul (x y : Q) : Q := round (x * y).
Definition div (x y : Q) : Q := round (x / y).

(** Half a unit in the last place of 1, the largest relative error of an
    operation. *)
Definition epsilon : Q := pow2 (-53).

End Double.

(** The same arithmetic as the Standard Library specifies it for IEEE 754
    binary64 ([SpecFloat], 53 bits of precision, exponents below 1024), to
    compare [Double] with. *)

Module Binary64.

Definition prec : Z := 53.
Definition emax : Z := 1024.

Definition of_Z (z : Z) : SpecFloat.spec_float :=
  SpecFloat.binary_normalize prec emax z 0 false.

Definition add : SpecFloat.spec_float -> SpecFloat.spec_float -> SpecFloat.spec_float :=
  SpecFloat.SFadd prec emax.
Definition sub : SpecFloat.spec_float -> SpecFloat.spec_float -> SpecFloat.spec_float :=
  SpecFloat.SFsub prec emax.
Definition mul : SpecFloat.spec_float -> SpecFloat.spec_float -> SpecFloat.spec_float :=
  SpecFloat.SFmul prec emax.
Definition div : SpecFloat.spec_float -> SpecFloat.spec_float -> SpecFloat.spec_float :=
  SpecFloat.SFdiv prec emax.

(** The rational a finite number denotes. *)
Definition value (x : SpecFloat.spec_float) : option Q :=
  match x with
  | SpecFloat.S754_zero _ => Some 0%Q
  | SpecFloat.S754_finite s m e =>
      Some ((if s then - inject_Z (Zpos m) else inject_Z (Zpos m)) * Qpower 2 e)%Q
  | _ => None
  end.

(** [value1 + (value2 - value1) * (step / totalSteps)]. *)
Definition interpolation (value1 value2 step totalSteps : Z) : option Q :=
  value (add (of_Z value1)
             (mul (sub (of_Z value2) (of_Z value1))
                  (div (of_Z step) (of_Z totalSteps)))).

Definition same (x : option Q) (y : Q) : bool :=
  match x with
  | Some x => Qeq_bool x y
  | None => false
  end.

End Binary64.

(** ** Dates *)

Module Date.

(** Days since 1970-01-01 to (year, month, day), proleptic Gregorian. *)
Definition civil_from_days (days : Z) : Z * Z * Z :=
  let z := days + 719468 in
  let era := z / 146097 in
  let doe := z - era * 146097 in
  let yoe := (doe - doe / 1460 + doe / 36524 - doe / 146096) / 365 in
  let doy := doe - (365 * yoe + yoe / 4 - yoe / 100) in
  let mp := (5 * doy + 2) / 153 in
  let d := doy - (153 * mp + 2) / 5 + 1 in
  let m := if mp <? 10 then mp + 3 else mp - 9 in
  ((yoe + era * 400) + (if m <=? 2 then 1 else 0), m, d).

Definition days_from_civil (y m d : Z) : Z :=
  let y' := if m <=? 2 then y - 1 else y in
  let era := y' / 400 in
  let yoe := y' - era * 400 in
  let doy := (153 * (if 2 <? m then m - 3 else m + 9) + 2) / 5 + d - 1 in
  let doe := yoe * 365 + yoe / 4 - yoe / 100 + doy in
  era * 146097 + doe - 719468.

Definition digit (n : Z) : ascii := ascii_of_nat (48 + Z.to_nat (n mod 10)).

Definition pad2 (n : Z) : string :=
  String (digit (n / 10)) (String (digit n) "").
Definition pad3 (n : Z) : string := String (digit (n / 100)) (pad2 n).
Definition pad4 (n : Z) : string := String (digit (n / 1000)) (pad3 n).

(** [date.toISOString()] for a date of millisecond value [ms], years 0000
    to 9999: [YYYY-MM-DDTHH:mm:ss.sssZ]. *)
Definition toISOString (ms : Z) : string :=
  let days := ms / 86400000 in
  let t := ms mod 86400000 in
  let '(y, m, d) := civil_from_days days in
  pad4 y ++ "-" ++ pad2 m ++ "-" ++ pad2 d ++ "T"
    ++ pad2 (t / 3600000) ++ ":" ++ pad2 (t / 60000 mod 60) ++ ":"
    ++ pad2 (t / 1000 mod 60) ++ "." ++ pad3 (t mod 1000) ++ "Z".

Definition digit_val (c : ascii) : option Z :=
  let n := Z.of_nat (nat_of_ascii c) in
  if (48 <=? n) && (n <=? 57) then Some (n - 48) else None.

Fixpoint digits_val (acc : Z) (cs : list ascii) : option Z :=
  match cs with
  | [] => Some acc
  | c :: cs' =>
      match digit_val c with
      | Some v => digits_val (10 * acc + v) cs'
      | None => None
      end
  end.

(** [new Date(text).getTime()] for a text in the format [toISOString]
    writes; [None] is NaN (an invalid date).  Other date formats that
    JavaScript accepts are not recognised here. *)
Definition getTime (text : string) : option Z :=
  match list_ascii_of_string text with
  | [y1; y2; y3; y4; "-"; m1; m2; "-"; d1; d2; "T";
     h1; h2; ":"; n1; n2; ":"; s1; s2; "."; f1; f2; f3; "Z"]%char =>
      match digits_val 0 [y1; y2; y3; y4], digits_val 0 [m1; m2],
            digits_val 0 [d1; d2], digits_val 0 [h1; h2],
            digits_val 0 [n1; n2], digits_val 0 [s1; s2],
            digits_val 0 [f1; f2; f3] with
      | Some y, Some m, Some d, Some h, Some n, Some s, Some f =>
          if (1 <=? m) && (m <=? 12) && (1 <=? d) && (d <=? 31)
             && (h <=? 23) && (n <=? 59) && (s <=? 59)
          then Some (days_from_civil y m d * 86400000
                     + h * 3600000 + n * 60000 + s * 1000 + f)
          else None
      | _, _, _, _, _, _, _ => None
      end
  | _ => None
  end.

End Date.

(** ** JSON: the values, [JSON.stringify] and [JSON.parse]

    The fragment the recorder uses: null, booleans, integers, strings,
    arrays and objects.  [parse] follows the JSON grammar on that fragment
    (white space between tokens, string escapes, no leading zeros); a number
    with a fraction or an exponent and an escape above code unit 255 are
    outside the fragment and rejected. *)

Module Json.

#[local] Set Warnings "-register-all".

Inductive json : Type :=
| JNull
| JBool (b : bool)
| JNum (n : Z)
| JStr (s : string)
| JArr (elements : list json)
| JObj (members : list (string * json)).

Definition dquote : ascii := "034"%char.
Definition backslash : ascii := "092"%char.

(** *** JSON.stringify *)

Definition hex_digit (n : nat) : ascii :=
  if (n <? 10)%nat then ascii_of_nat (48 + n) else ascii_of_nat (87 + n).

Definition escape (c : ascii) : string :=
  if (c =? dquote)%char then String backslash (String dquote "")
  else if (c =? backslash)%char then String backslash (String backslash "")
  else if (c =? "008")%char then String backslash "b"
  else if (c =? "012")%char then String backslash "f"
  else if (c =? "010")%char then String backslash "n"
  else if (c =? "013")%char then String backslash "r"
  else if (c =? "009")%char then String backslash "t"
  else if (nat_of_ascii c <? 32)%nat
       then String backslash
              ("u00" ++ String (hex_digit (nat_of_ascii c / 16))
                          (String (hex_digit (nat_of_ascii c mod 16)) ""))
  else String c "".

Fixpoint quote_body (s : string) : string :=
  match s with
  | EmptyString => ""
  | String c r => escape c ++ quote_body r
  end.

Definition quote (s : string) : string :=
  String dquote (quote_body s ++ String dquote "").

Fixpoint join (sep : string) (parts : list string) : string :=
  match parts with
  | [] => ""
  | [p] => p
  | p :: rest => p ++ sep ++ join sep rest
  end.

Fixpoint stringify (v : json) : string :=
  match v with
  | JNull => "null"
  | JBool true => "true"
  | JBool false => "false"
  | JNum n => JS.num_to_string n
  | JStr s => quote s
  | JArr elements => "[" ++ join "," (map stringify elements) ++ "]"
  | JObj members =>
      "{" ++ join "," (map (fun kv => quote (fst kv) ++ ":" ++ stringify (snd kv))
                           members) ++ "}"
  end.

(** *** JSON.parse *)

Definition is_ws (c : ascii) : bool :=
  (c =? " ")%char || (c =? "009")%char || (c =? "010")%char || (c =? "013")%char.

Fixpoint skip_ws (s : string) : string :=
  match s with
  | String c r => if is_ws c then skip_ws r else s
  | EmptyString => s
  end.

Definition digit_of (c : ascii) : option (Decimal.uint -> Decimal.uint) :=
  match c with
  | "0" => Some Decimal.D0 | "1" => Some Decimal.D1 | "2" => Some Decimal.D2
  | "3" => Some Decimal.D3 | "4" => Some Decimal.D4 | "5" => Some Decimal.D5
  | "6" => Some Decimal.D6 | "7" => Some Decimal.D7 | "8" => Some Decimal.D8
  | "9" => Some Decimal.D9 | _ => None
  end%char.

Fixpoint parse_digits (s : string) : Decimal.uint * string :=
  match s with
  | String c r =>
      match digit_of c with
      | Some d => let (u, r') := parse_digits r in (d u, r')
      | None => (Decimal.Nil, s)
      end
  | EmptyString => (Decimal.Nil, s)
  end.

Definition starts_fraction (s : string) : bool :=
  match s with
  | String c _ => (c =? ".")%char || (c =? "e")%char || (c =? "E")%char
  | EmptyString => false
  end.

Definition parse_number (s : string) : option (Z * string) :=
  let (negative, body) :=
    match s with
    | String "-" r => (true, r)
    | _ => (false, s)
    end in
  let (u, r) := parse_digits body in
  match u with
  | Decimal.Nil => None
  | Decimal.D0 (Decimal.D0 _ | Decimal.D1 _ | Decimal.D2 _ | Decimal.D3 _
               | Decimal.D4 _ | Decimal.D5 _ | Decimal.D6 _ | Decimal.D7 _
               | Decimal.D8 _ | Decimal.D9 _) => None
  | _ =>
      if starts_fraction r then None
      else Some (Z.of_int (if negative then Decimal.Neg u else Decimal.Pos u), r)
  end.

Definition hex_val (c : ascii) : option nat :=
  let n := nat_of_ascii c in
  if (48 <=? n)%nat && (n <=? 57)%nat then Some (n - 48)%nat
  else if (97 <=? n)%nat && (n <=? 102)%nat then Some (n - 87)%nat
  else if (65 <=? n)%nat && (n <=? 70)%nat then Some (n - 55)%nat
  else None.

Definition unescape (c : ascii) : option ascii :=
  if (c =? dquote)%char then Some dquote
  else if (c =? backslash)%char then Some backslash
  else if (c =? "/")%char then Some "/"%char
  else if (c =? "b")%char then Some "008"%char
  else if (c =? "f")%char then Some "012"%char
  else if (c =? "n")%char then Some "010"%char
  else if (c =? "r")%char then Some "013"%char
  else if (c =? "t")%char then Some "009"%char
  else None.

(** The characters of a string literal after its opening quote, up to and
    including the closing quote. *)
Fixpoint parse_string_body (s : string) : option (string * string) :=
  match s with
  | EmptyString => None
  | String c r =>
      if (c =? dquote)%char then Some ("", r)
      else if (c =? backslash)%char then
        match r with
        | String e r' =>
            match unescape e with
            | Some c' =>
                match parse_string_body r' with
                | Some (str, rest) => Some (String c' str, rest)
                | None => None
                end
            | None =>
                match e, r' with
                | "u"%char, String h1 (String h2 (String h3 (String h4 r''))) =>
                    match hex_val h1, hex_val h2, hex_val h3, hex_val h4 with
                    | Some O, Some O, Some a, Some b =>
                        match parse_string_body r'' with
                        | Some (str, rest) =>
                            Some (String (ascii_of_nat (16 * a + b)) str, rest)
                        | None => None
                        end
                    | _, _, _, _ => None
                    end
                | _, _ => None
                end
            end
        | EmptyString => None
        end
      else if (nat_of_ascii c <? 32)%nat then None
      else
        match parse_string_body r with
        | Some (str, rest) => Some (String c str, rest)
        | None => None
        end
  end.

Fixpoint strip_prefix (lit s : string) : option string :=
  match lit with
  | EmptyString => Some s
  | String a lit' =>
      match s with
      | String b s' => if (a =? b)%char then strip_prefix lit' s' else None
      | EmptyString => None
      end
  end.

Definition parse_literal (lit : string) (v : json) (s : string)
  : option (json * string) :=
  match strip_prefix lit s with
  | Some rest => Some (v, rest)
  | None => None
  end.

Section Elements.
Variable parse_element : string -> option (json * string).

(** After [[]: [value (, value)* ]]. *)
Fixpoint parse_elements (fuel : nat) (s : string)
  : option (list json * string) :=
  match fuel with
  | O => None
  | S fuel' =>
      match parse_element s with
      | Some (v, r) =>
          match skip_ws r with
          | String c r' =>
              if (c =? ",")%char then
                match parse_elements fuel' r' with
                | Some (vs, rest) => Some (v :: vs, rest)
                | None => None
                end
              else if (c =? "]")%char then Some ([v], r')
              else None
          | EmptyString => None
          end
      | None => None
      end
  end.

(** After [{]: [string : value (, string : value)* }]. *)
Fixpoint parse_members (fuel : nat) (s : string)
  : option (list (string * json) * string) :=
  match fuel with
  | O => None
  | S fuel' =>
      match skip_ws s with
      | String q r0 =>
          if (q =? dquote)%char then
            match parse_string_body r0 with
            | Some (key, r1) =>
                match skip_ws r1 with
                | String colon r2 =>
                    if (colon =? ":")%char then
                      match parse_element r2 with
                      | Some (v, r) =>
                          match skip_ws r with
                          | String c r' =>
                              if (c =? ",")%char then
                                match parse_members fuel' r' with
                                | Some (ms, rest) => Some ((key, v) :: ms, rest)
                                | None => None
                                end
                              else if (c =? "}")%char then Some ([(key, v)], r')
                              else None
                          | EmptyString => None
                          end
                      | None => None
                      end
                    else None
                | EmptyString => None
                end
            | None => None
            end
          else None
      | EmptyString => None
      end
  end.
End Elements.

(** A value, after optional white space.  [fuel] bounds the nesting depth. *)
Fixpoint parse_value (fuel : nat) (s : string) : option (json * string) :=
  match fuel with
  | O => None
  | S fuel' =>
      match skip_ws s with
      | EmptyString => None
      | String c r =>
          if (c =? "n")%char then parse_literal "null" JNull (String c r)
          else if (c =? "t")%char then parse_literal "true" (JBool true) (String c r)
          else if (c =? "f")%char then parse_literal "false" (JBool false) (String c r)
          else if (c =? dquote)%char then
            match parse_string_body r with
            | Some (str, rest) => Some (JStr str, rest)
            | None => None
            end
          else if (c =? "[")%char then
            match skip_ws r with
            | String c' r' =>
                if (c' =? "]")%char then Some (JArr [], r')
                else
                  match parse_elements (parse_value fuel') (String.length r) r with
                  | Some (vs, rest) => Some (JArr vs, rest)
                  | None => None
                  end
            | EmptyString => None
            end
          else if (c =? "{")%char then
            match skip_ws r with
            | String c' r' =>
                if (c' =? "}")%char then Some (JObj [], r')
                else
                  match parse_members (parse_value fuel') (String.length r) r with
                  | Some (ms, rest) => Some (JObj ms, rest)
                  | None => None
                  end
            | EmptyString => None
            end
          else
            match parse_number (String c r) with
            | Some (n, rest) => Some (JNum n, rest)
            | None => None
            end
      end
  end.

(** [JSON.parse(text)]: one value, then nothing but white space.  The
    nesting depth of a text is below its length. *)
Definition parse (text : string) : result json :=
  match parse_value (S (String.length text)) text with
  | Some (v, rest) =>
      match skip_ws rest with
      | EmptyString => Ok v
      | String _ _ => Throw SyntaxError
      end
  | None => Throw SyntaxError
  end.

(** [obj[key]]: the last member of that name, [None] for undefined. *)
Fixpoint get (key : string) (members : list (string * json)) : option json :=
  match members with
  | [] => None
  | (k, v) :: rest =>
      match get key rest with
      | Some v' => Some v'
      | None => if String.eqb k key then Some v else None
      end
  end.

(** *** Vocabulary for the facts about [parse] *)

(** The line feed [close()] writes after the closing bracket. *)
Definition newline : string := String "010" "".

(** The text of one member of an object. *)
Definition member_text (kv : string * json) : string :=
  quote (fst kv) ++ ":" ++ stringify (snd kv).

(** The nesting depth of a value. *)
Fixpoint depth (v : json) : nat :=
  match v with
  | JArr elements => S (fold_right (fun e acc => Nat.max (depth e) acc) O elements)
  | JObj members =>
      S (fold_right (fun kv acc => Nat.max (depth (snd kv)) acc) O members)
  | _ => 1
  end.

(** What may follow a number: not a digit, not a fraction, not an exponent. *)
Definition ends_number (rest : string) : bool :=
  match rest with
  | EmptyString => true
  | String c _ =>
      match digit_of c with
      | Some _ => false
      | None => negb (starts_fraction rest)
      end
  end.

(** A decimal numeral as JSON writes it: not empty, no leading zero. *)
Definition canonical (u : Decimal.uint) : Prop :=
  match u with
  | Decimal.Nil => False
  | Decimal.D0 Decimal.Nil => True
  | Decimal.D0 _ => False
  | _ => True
  end.

(** The first character of the text of a value. *)
Definition starts_value (s : string) : Prop :=
  exists c r, s = String c r /\ is_ws c = false /\ (c =? "]")%char = false.

(** The parser of fuel [fuel] reads [v] back from its text. *)
Definition parses_back (fuel : nat) (v : json) : Prop :=
  forall rest, ends_number rest = true ->
               parse_value fuel (stringify v ++ rest) = Some (v, rest).

End Json.

(** ** The data of the player *)

(** A captured packet.  [TS] holds the capture [Date] in its JSON form (the
    text [toISOString] gives), which is what [JSON.stringify] writes and what
    the loader gets back; [U] is the logical universe the listener was
    created for, [S] its subnet and [N] its net. *)
Module Packet.
Record t : Type := mk {
  TS : string;
  U : Z;
  S : Z;
  N : Z;
  data : list Z
}.

Definition with_data (p : t) (d : list Z) : t := mk (TS p) (U p) (S p) (N p) d.
End Packet.

(** An Art-Net sender of the dmxnet library, as far as the player reads it:
    the options it was created with. *)
Module Sender.
Record t : Type := mk {
  ip : string;
  universe : Z;
  subnet : Z;
  net : Z
}.
End Sender.

Record Output : Type := {
  output_ip : string;
  output_universe : list Z
}.

Record RecordingMetadata : Type := {
  filename : string;
  createdAt : string;
  universes : list Z
}.

(** What reaches the outputs. *)
Inductive event : Type :=
| Transmit (s : Sender.t) (channels : list Z)
    (* transmitData: prepChannel for every value, then transmit() *)
| TransmitFailed
    (* transmitData on an undefined sender: the TypeError is caught and logged *)
| FillChannels (s : Sender.t) (first last value : Z).

(** What [JSON.stringify(packet)] writes.  The dmxnet receiver hands the
    listener the channel values as an array of numbers, and that is how they
    are written. *)
Definition Packet_toJSON (p : Packet.t) : Json.json :=
  Json.JObj [("TS", Json.JStr (Packet.TS p));
             ("U", Json.JNum (Packet.U p));
             ("S", Json.JNum (Packet.S p));
             ("N", Json.JNum (Packet.N p));
             ("data", Json.JArr (map Json.JNum (Packet.data p)))].

Definition Metadata_toJSON (m : RecordingMetadata) : Json.json :=
  Json.JObj [("filename", Json.JStr (filename m));
             ("createdAt", Json.JStr (createdAt m));
             ("universes", Json.JArr (map Json.JNum (universes m)))].

Definition as_number (v : Json.json) : result Z :=
  match v with
  | Json.JNum n => Ok n
  | _ => Throw IllTyped
  end.

Definition field (key : string) (members : list (string * Json.json))
  : result Json.json :=
  match Json.get key members with
  | Some v => Ok v
  | None => Throw IllTyped
  end.

(** The cast of a parsed record to [Packet]: JavaScript does not check it;
    here a record of another shape is reported as [IllTyped]. *)
Definition as_Packet (v : Json.json) : result Packet.t :=
  match v with
  | Json.JObj members =>
      ts <- field "TS" members ;;
      u <- field "U" members ;;
      s <- field "S" members ;;
      n <- field "N" members ;;
      d <- field "data" members ;;
      match ts, d with
      | Json.JStr ts', Json.JArr values =>
          u' <- as_number u ;;
          s' <- as_number s ;;
          n' <- as_number n ;;
          values' <- mapM as_number values ;;
          Ok (Packet.mk ts' u' s' n' values')
      | _, _ => Throw IllTyped
      end
  | _ => Throw IllTyped
  end.

Fixpoint mapi_from {A B : Type} (f : nat -> A -> B) (i : nat) (l : list A)
  : list B :=
  match l with
  | [] => []
  | a :: l' => f i a :: mapi_from f (S i) l'
  end.

(** [arr.map((x, i) => f(i, x))]. *)
Definition mapi {A B : Type} (f : nat -> A -> B) (l : list A) : list B :=
  mapi_from f 0 l.

(** [arr[i] = x] for an index in range. *)
Fixpoint replace_nth {A : Type} (l : list A) (i : nat) (x : A) : list A :=
  match l, i with
  | [], _ => []
  | _ :: l', O => x :: l'
  | a :: l', S i' => a :: replace_nth l' i' x
  end.

(** ** src/index.ts: class DMXRecorder *)

Module Recorder.

Record State : Type := {
  inputUnis : list Z;
  outputs : list Output;
  senders : list Sender.t;
  verbose : bool;
  playbackFPS : Z;
  playing : bool;
  recording : bool;
  passthrough : bool;
  metadata : option RecordingMetadata;
  playerMeta : option Json.json;
  playerContent : option (list Packet.t);
  timeout : nat;               (* how many times the idle timer was armed *)
  gzip : option string;        (* the text written into the gzip stream *)
  out : list event             (* what was sent to the outputs, oldest first *)
}.

Definition set_playing (b : bool) (st : State) : State :=
  {| inputUnis := inputUnis st; outputs := outputs st; senders := senders st;
     verbose := verbose st; playbackFPS := playbackFPS st; playing := b;
     recording := recording st; passthrough := passthrough st;
     metadata := metadata st; playerMeta := playerMeta st;
     playerContent := playerContent st; timeout := timeout st;
     gzip := gzip st; out := out st |}.

Definition set_recording (b : bool) (m : option RecordingMetadata)
  (text : option string) (st : State) : State :=
  {| inputUnis := inputUnis st; outputs := outputs st; senders := senders st;
     verbose := verbose st; playbackFPS := playbackFPS st; playing := playing st;
     recording := b; passthrough := passthrough st;
     metadata := m; playerMeta := playerMeta st;
     playerContent := playerContent st; timeout := timeout st;
     gzip := text; out := out st |}.

Definition set_player (m : option Json.json) (content : option (list Packet.t))
  (st : State) : State :=
  {| inputUnis := inputUnis st; outputs := outputs st; senders := senders st;
     verbose := verbose st; playbackFPS := playbackFPS st; playing := playing st;
     recording := recording st; passthrough := passthrough st;
     metadata := metadata st; playerMeta := m;
     playerContent := content; timeout := timeout st;
     gzip := gzip st; out := out st |}.

Definition set_timeout (n : nat) (st : State) : State :=
  {| inputUnis := inputUnis st; outputs := outputs st; senders := senders st;
     verbose := verbose st; playbackFPS := playbackFPS st; playing := playing st;
     recording := recording st; passthrough := passthrough st;
     metadata := metadata st; playerMeta := playerMeta st;
     playerContent := playerContent st; timeout := n;
     gzip := gzip st; out := out st |}.

Definition emit (evs : list event) (st : State) : State :=
  {| inputUnis := inputUnis st; outputs := outputs st; senders := senders st;
     verbose := verbose st; playbackFPS := playbackFPS st; playing := playing st;
     recording := recording st; passthrough := passthrough st;
     metadata := metadata st; playerMeta := playerMeta st;
     playerContent := playerContent st; timeout := timeout st;
     gzip := gzip st; out := out st ++ evs |}.

(** [createSenders]: one sender per output and universe, in order. *)
Definition createSenders (outs : list Output) : list Sender.t :=
  flat_map (fun output =>
              map (fun universe =>
                     Sender.mk (output_ip output)
                               (JS.rem universe 16) (JS.floor_div universe 16) 0)
                  (output_universe output))
           outs.

(** [checkForTimeout]: the pending idle timer is cleared and a new one armed. *)
Definition checkForTimeout (st : State) : State :=
  set_timeout (S (timeout st)) st.

Definition blackout (st : State) : State :=
  emit (map (fun sender => FillChannels sender 0 511 0) (senders st)) st.

(** The idle timer firing, 3000 ms after it was armed. *)
Definition on_timeout (st : State) : State :=
  if playing st || recording st then st else blackout st.

(** [transmitData(sender, data)]; the sender is undefined when [find] found
    none. *)
Definition transmitData (sender : option Sender.t) (channels : list Z)
  (st : State) : State :=
  match sender with
  | Some s => emit [Transmit s channels] st
  | None => emit [TransmitFailed] st
  end.

(** [this.gzip!.write(text)]. *)
Definition gzip_write (text : string) (st : State) : result State :=
  match gzip st with
  | Some written =>
      Ok (set_recording (recording st) (metadata st) (Some (written ++ text)) st)
  | None => Throw TypeError
  end.

(** The ["data"] callback of the receiver that [createListeners] creates for
    [universe]; [now] is the clock. *)
Definition on_data (universe : Z) (channels : list Z) (now : Z) (st : State)
  : result State :=
  let subnet := JS.floor_div universe 16 in
  let net := 0 in
  let st := checkForTimeout st in
  if playing st then Ok st
  else
    let packet := Packet.mk (Date.toISOString now) universe subnet net channels in
    st <- (if recording st
           then gzip_write ("," ++ Json.stringify (Packet_toJSON packet)) st
           else Ok st) ;;
    Ok (if passthrough st
        then fold_left (fun acc sender =>
                          if Sender.universe sender =? universe
                          then transmitData (Some sender) channels acc
                          else acc)
                       (senders st) st
        else st).

Fixpoint replace_all (a b : ascii) (s : string) : string :=
  match s with
  | EmptyString => ""
  | String c r => String (if (c =? a)%char then b else c) (replace_all a b r)
  end.

Fixpoint replace_first (a b : ascii) (s : string) : string :=
  match s with
  | EmptyString => ""
  | String c r => if (c =? a)%char then String b r else String c (replace_first a b r)
  end.

Fixpoint before_first (a : ascii) (s : string) : string :=
  match s with
  | EmptyString => ""
  | String c r => if (c =? a)%char then "" else String c (before_first a r)
  end.

(** [record()]; the clock is read for the file name and again for
    [createdAt]. *)
Definition record (now_name now_created : Z) (st : State) : State :=
  let date :=
    before_first "." (replace_first "T" "-"
                        (replace_all ":" "-" (Date.toISOString now_name))) in
  let fileName := date ++ ".dmxrec" in
  let meta := {| filename := fileName;
                 createdAt := Date.toISOString now_created;
                 universes := inputUnis st |} in
  set_recording true (Some meta)
    (Some ("[" ++ Json.stringify (Metadata_toJSON meta))) st.

(** [close()]. *)
Definition close (st : State) : result State :=
  if negb (recording st) then Ok st
  else
    let st := set_recording false (metadata st) (gzip st) st in
    st <- gzip_write "]" st ;;
    gzip_write (String "010" "") st.

(** [stop()]. *)
Definition stop (st : State) : State :=
  checkForTimeout (set_playing false st).

(** The comparator of both sorts: [(a, b) => (a.TS < b.TS ? -1 : 1)]. *)
Definition by_TS (a b : Packet.t) : Z :=
  if JS.string_lt (Packet.TS a) (Packet.TS b) then -1 else 1.

(** [handleFileData(chunks)] up to the call of [loop]: parse, stop and black
    out a running playback, install the metadata and the sorted packets. *)
Definition handleFileData (chunks : list string) (st : State) : result State :=
  data <- Json.parse (String.concat "" chunks) ;;
  let st :=
    if playing st
    then blackout (set_player None None (set_playing false st))
    else st in
  match data with
  | Json.JArr elements =>
      content <- mapM as_Packet (tl elements) ;;
      Ok (set_player (hd_error elements) (Some (JS.sort by_TS content)) st)
  | _ => Throw TypeError
  end.

(** *** loop(): the delays *)

(** A difference of two [getTime()] values; [None] is NaN. *)
Definition num_sub (a b : option Z) : option Z :=
  match a, b with
  | Some x, Some y => Some (x - y)
  | _, _ => None
  end.

Definition delay_at (tempBuffer : list Packet.t) (i : nat) (packet : Packet.t)
  : option Z :=
  match i with
  | O => Some 0
  | S j =>
      match nth_error tempBuffer j with
      | Some prev =>
          num_sub (Date.getTime (Packet.TS packet)) (Date.getTime (Packet.TS prev))
      | None => None
      end
  end.

Definition delays (tempBuffer : list Packet.t) : list (option Z) :=
  mapi (delay_at tempBuffer) tempBuffer.

Definition recordedUniverses (tempBuffer : list Packet.t) : nat :=
  JS.Set_size
    (map (fun packet =>
            JS.num_to_string (Packet.U packet) ++ ":"
              ++ JS.num_to_string (Packet.S packet) ++ ":"
              ++ JS.num_to_string (Packet.N packet))
         tempBuffer).

(** *** loop(): fade in from black, fade out to black *)

Definition fadeInOutSteps : Q := 300%Q.

Definition actualFadeSteps (totalPackets : nat) : Q :=
  Qmin fadeInOutSteps (inject_Z (Z.of_nat totalPackets) / 2)%Q.

(** [Buffer.from(data.map(value => Math.round(value * factor)))]; the
    product is a double. *)
Definition scale (factor : Q) (channels : list Z) : list Z :=
  map (fun value =>
         JS.to_uint8 (JS.Math_round (Double.mul (Double.of_Z value) factor)))
      channels.

(** [tempBuffer[index].data = f(tempBuffer[index].data)]; when the index
    names no element, reading [.data] of undefined throws. *)
Definition update_data (tempBuffer : list Packet.t) (index : Q)
  (f : list Z -> list Z) : result (list Packet.t) :=
  match JS.index tempBuffer index with
  | Some packet =>
      Ok (replace_nth tempBuffer (Z.to_nat (Qfloor index))
            (Packet.with_data packet (f (Packet.data packet))))
  | None => Throw TypeError
  end.

Definition fade_step (steps : Q) (totalPackets : nat) (tempBuffer : list Packet.t)
  (i : nat) : result (list Packet.t) :=
  let fadeFactor := Double.div (Double.of_Z (Z.of_nat i)) steps in
  let startPacketIndex := inject_Z (Z.of_nat i) in
  tempBuffer <- update_data tempBuffer startPacketIndex (scale fadeFactor) ;;
  let endPacketIndex :=
    (inject_Z (Z.of_nat totalPackets) - steps + inject_Z (Z.of_nat i))%Q in
  update_data tempBuffer endPacketIndex (scale (Double.sub 1 fadeFactor)).

(** [for (let i = 0; i < actualFadeSteps; i++)]: the body runs for the
    naturals below [actualFadeSteps], that is for the first
    [ceil(actualFadeSteps)] of them. *)
Definition fade (tempBuffer : list Packet.t) : result (list Packet.t) :=
  let totalPackets := List.length tempBuffer in
  let steps := actualFadeSteps totalPackets in
  fold_left (fun acc i => buf <- acc ;; fade_step steps totalPackets buf i)
            (seq 0 (Z.to_nat (Qceiling steps))) (Ok tempBuffer).

(** *** loop(): the playback loop *)

Inductive prepared : Type :=
| NoData
| Ready (st : State) (tempBuffer : list Packet.t) (delays : list (option Z)).

(** [loop()] down to the playback loop.  The sort is in place and the fade
    writes into the packets of [playerContent] itself, so the state ends up
    holding the faded buffer. *)
Definition loop_prepare (st : State) : result prepared :=
  match playerContent st with
  | None | Some [] => Ok NoData
  | Some content =>
      let st := set_playing true st in
      let tempBuffer := JS.sort by_TS content in
      let ds := delays tempBuffer in
      faded <- fade tempBuffer ;;
      Ok (Ready (set_player (playerMeta st) (Some faded) st) faded ds)
  end.

Definition matches (packet : Packet.t) (sender : Sender.t) : bool :=
  (Sender.universe sender =? Packet.U packet)
  && (Sender.subnet sender =? Packet.S packet)
  && (Sender.net sender =? Packet.N packet).

(** [pbd > 2] and the sleep [pbd - 2]; a NaN delay compares false. *)
Definition sleep_for (delay : option Z) (processingTime : Z) : option Z :=
  match delay with
  | Some d =>
      let pbd := d - processingTime in
      if 2 <? pbd then Some (pbd - 2) else None
  | None => None
  end.

Inductive step : Type :=
| Finished                         (* [i < tempBuffer.length] is false *)
| Break                            (* [if (!this.playing) break] *)
| Next (st : State) (i : nat) (sleep : option Z).

(** One turn of [for (let i = 0; i < tempBuffer.length; i++)], from the
    test of [i] to the increment; [processingTime] is [ts2 - ts], the time
    the clock shows the transmit took. *)
Definition loop_iteration (tempBuffer : list Packet.t) (ds : list (option Z))
  (st : State) (i : nat) (processingTime : Z) : step :=
  match nth_error tempBuffer i with
  | None => Finished
  | Some packet =>
      let sender := JS.find (matches packet) (senders st) in
      if negb (playing st) then Break
      else
        let i := if (i =? List.length tempBuffer - 1)%nat then O else i in
        let st := transmitData sender (Packet.data packet) st in
        let delay := match nth_error ds i with Some d => d | None => None end in
        Next st (S i) (sleep_for delay processingTime)
  end.

(** What can run while the loop is suspended in a sleep. *)
Inductive callback : Type :=
| CallStop                                       (* stop() *)
| CallEnd                                        (* the shell's "end" *)
| Inbound (universe : Z) (channels : list Z) (now : Z).

Definition run_callback (c : callback) (st : State) : result State :=
  match c with
  | CallStop => Ok (stop st)
  | CallEnd => Ok (set_playing false st)
  | Inbound universe channels now => on_data universe channels now st
  end.

Fixpoint run_callbacks (cs : list callback) (st : State) : result State :=
  match cs with
  | [] => Ok st
  | c :: cs' => st' <- run_callback c st ;; run_callbacks cs' st'
  end.

(** The environment of one turn of the loop: the processing time the clock
    shows, and the callbacks that become due during the turn.  They run when
    the loop next sleeps: JavaScript runs no callback while the loop is not
    suspended. *)
Record turn : Type := {
  processingTime : Z;
  arrivals : list callback
}.

Inductive status : Type :=
| Left (st : State)                 (* the loop was left, by the test or by break *)
| Running (st : State) (i : nat) (pending : list callback)
| Crashed (e : error).

Fixpoint run (tempBuffer : list Packet.t) (ds : list (option Z))
  (script : list turn) (pending : list callback) (st : State) (i : nat)
  : status :=
  match script with
  | [] => Running st i pending
  | t :: script' =>
      match loop_iteration tempBuffer ds st i (processingTime t) with
      | Finished | Break => Left st
      | Next st' i' (Some _) =>
          match run_callbacks (pending ++ arrivals t) st' with
          | Ok st'' => run tempBuffer ds script' [] st'' i'
          | Throw e => Crashed e
          end
      | Next st' i' None =>
          run tempBuffer ds script' (pending ++ arrivals t) st' i'
      end
  end.

(** *** A recording session *)

(** The packet the listener builds for an inbound packet
    (universe, channels, clock). *)
Definition captured (p : Z * list Z * Z) : Packet.t :=
  let '(universe, channels, now) := p in
  Packet.mk (Date.toISOString now) universe (JS.floor_div universe 16) 0 channels.

(** The listener called for each inbound packet in turn. *)
Fixpoint capture (inbound : list (Z * list Z * Z)) (st : State) : result State :=
  match inbound with
  | [] => Ok st
  | (universe, channels, now) :: more =>
      st' <- on_data universe channels now st ;; capture more st'
  end.

(** The text that [record()] and the listener have put into the gzip stream
    once [packets] are captured (see [capture_appends]). *)
Definition recording_text (meta : RecordingMetadata) (packets : list Packet.t)
  : string :=
  String "[" (Json.join "," (map Json.stringify
                               (Metadata_toJSON meta :: map Packet_toJSON packets))).

End Recorder.

(** ** The frame-based iteration of the player

    The version of [DMXRecorder] that groups the packets into frames and
    cross-fades the end of the clip into its start (prepareFrames,
    processFrame, interpolateFrames, processAndDelay and its [loop]).
    [playbackFPS] is an integer here, as its default 30 is. *)

Module Frames.

Record Frame : Type := {
  delay : Z;
  packet : list Packet.t
}.

(** The size of [new Set(playerContent.map(packet => `${U}:${S}:${N}`))]. *)
Definition recordedUniverses (playerContent : list Packet.t) : nat :=
  JS.Set_size
    (map (fun packet =>
            JS.num_to_string (Packet.U packet) ++ ":"
              ++ JS.num_to_string (Packet.S packet) ++ ":"
              ++ JS.num_to_string (Packet.N packet))
         playerContent).

(** [for (let i = 0; i < playerContent.length; i += size)].  With a
    positive [size] the loop ends within [playerContent.length] turns, which
    is the fuel [prepareFrames] gives it. *)
Fixpoint prepareFrames_from (fuel : nat) (playerContent : list Packet.t)
  (size : nat) (i : nat) : list Frame :=
  match fuel with
  | O => []
  | S fuel' =>
      if (i <? List.length playerContent)%nat
      then {| delay := 0;
              packet := JS.slice playerContent (Z.of_nat i) (Z.of_nat (i + size)) |}
             :: prepareFrames_from fuel' playerContent size (i + size)
      else []
  end.

Definition prepareFrames (playerContent : list Packet.t) (size : nat)
  : list Frame :=
  prepareFrames_from (List.length playerContent) playerContent size 0.

(** The filter of [processFrame]; it compares the sender's subnet with the
    packet's [N]. *)
Definition matches (packet : Packet.t) (sender : Sender.t) : bool :=
  (Sender.universe sender =? Packet.U packet)
  && (Sender.subnet sender =? Packet.N packet)
  && (Sender.net sender =? Packet.N packet).

Definition processFrame (senders : list Sender.t) (frame : Frame) : list event :=
  flat_map (fun packet =>
              map (fun sender => Transmit sender (Packet.data packet))
                  (filter (matches packet) senders))
           (packet frame).

Definition getCurrentClipEndFrames (frames : list Frame) (framesForFade : Q)
  : list Frame :=
  JS.slice_from frames (JS.trunc (- framesForFade)).

Definition prepareFramesForClip (playerContent clip : list Packet.t)
  : list Frame :=
  prepareFrames playerContent (recordedUniverses clip).

Definition getNewClipStartFrames (playerContent newClip : list Packet.t)
  (framesForFade : Q) : list Frame :=
  JS.slice (prepareFramesForClip playerContent newClip) 0 (JS.trunc framesForFade).

Definition same_address (packet1 p : Packet.t) : bool :=
  (Packet.U p =? Packet.U packet1)
  && (Packet.S p =? Packet.S packet1)
  && (Packet.N p =? Packet.N packet1).

(** The double [value1 + (value2 - value1) * (step / totalSteps)]: a
    quotient, a difference, a product and a sum, each rounded. *)
Definition interpolation (value1 value2 step totalSteps : Z) : Q :=
  Double.add (Double.of_Z value1)
    (Double.mul (Double.sub (Double.of_Z value2) (Double.of_Z value1))
                (Double.div (Double.of_Z step) (Double.of_Z totalSteps))).

(** [Math.round(value1 + (value2 - value1) * (step / totalSteps))] stored
    into a [Buffer].  A missing [value2] and a zero [totalSteps] make the
    sum NaN or infinite, which a [Buffer] stores as 0. *)
Definition interpolate_value (value1 : Z) (value2 : option Z)
  (step totalSteps : Z) : Z :=
  match value2 with
  | Some value2 =>
      if totalSteps =? 0 then 0
      else JS.to_uint8 (JS.Math_round (interpolation value1 value2 step totalSteps))
  | None => 0
  end.

Definition interpolatedPacket (now : Z) (packet1 packet2 : Packet.t)
  (step totalSteps : Z) : Packet.t :=
  Packet.mk (Date.toISOString now) (Packet.U packet1) (Packet.S packet1)
    (Packet.N packet1)
    (mapi (fun j value1 =>
             interpolate_value value1 (nth_error (Packet.data packet2) j)
               step totalSteps)
          (Packet.data packet1)).

(** The body of [for (let i = 0; i < frame1.packet.length; i++)]: a packet
    of [frame1] without a packet of the same address in [frame2] is skipped
    ([continue]). *)
Fixpoint interpolate_packets (now : Z) (packets1 : list Packet.t)
  (frame2 : option Frame) (step totalSteps : Z) : result (list Packet.t) :=
  match packets1 with
  | [] => Ok []
  | packet1 :: rest =>
      match frame2 with
      | None => Throw TypeError
      | Some f2 =>
          more <- interpolate_packets now rest frame2 step totalSteps ;;
          match JS.find (same_address packet1) (packet f2) with
          | None => Ok more
          | Some packet2 =>
              Ok (interpolatedPacket now packet1 packet2 step totalSteps :: more)
          end
      end
  end.

(** [interpolateFrames(frame1, frame2, step, totalSteps)]; a frame is
    undefined when the caller indexed an empty array. *)
Definition interpolateFrames (now : Z) (frame1 frame2 : option Frame)
  (step totalSteps : Z) : result Frame :=
  match frame1 with
  | None => Throw TypeError
  | Some f1 =>
      packets <- interpolate_packets now (packet f1) frame2 step totalSteps ;;
      Ok {| delay := 0; packet := packets |}
  end.

(** [loop()]: the interpolated frames. *)
Definition interpolatedFrames (now : Z) (endFrames startFrames : list Frame)
  (framesForFade : Z) : result (list Frame) :=
  mapM (fun i =>
          interpolateFrames now (JS.index_mod endFrames i)
            (JS.index_mod startFrames i) (Z.of_nat i) framesForFade)
       (seq 0 (Z.to_nat framesForFade)).

(** [for (let i = 0; i < secondHalf.length; i++) frames[i] = secondHalf[i]]. *)
Definition write_start (frames : list (option Frame)) (secondHalf : list Frame)
  : list (option Frame) :=
  fold_left (fun frames ix => JS.array_set frames (Z.of_nat (fst ix)) (snd ix))
            (combine (seq 0 (List.length secondHalf)) secondHalf) frames.

(** [frames[frames.length - firstHalf.length + i] = firstHalf[i]]. *)
Definition write_end (frames : list (option Frame)) (firstHalf : list Frame)
  : list (option Frame) :=
  fold_left (fun frames ix =>
               JS.array_set frames
                 (Z.of_nat (List.length frames) - Z.of_nat (List.length firstHalf)
                  + Z.of_nat (fst ix))
                 (snd ix))
            (combine (seq 0 (List.length firstHalf)) firstHalf) frames.

(** [loop()] from the frames to the playback loop: the frames of a
    non-empty [playerContent] with the cross-fade written over their start
    and their end. *)
Definition loop_frames (now : Z) (playbackFPS : Z) (playerContent : list Packet.t)
  : result (list (option Frame)) :=
  let frames := prepareFrames playerContent (recordedUniverses playerContent) in
  let framesForFade := playbackFPS * 1 in
  let endFrames := getCurrentClipEndFrames frames (inject_Z framesForFade / 2)%Q in
  let startFrames :=
    getNewClipStartFrames playerContent playerContent
      (inject_Z framesForFade / 2)%Q in
  interpolated <- interpolatedFrames now endFrames startFrames framesForFade ;;
  let half := Z.of_nat (List.length interpolated) / 2 in
  let firstHalf := JS.slice interpolated 0 half in
  let secondHalf := JS.slice_from interpolated half in
  Ok (write_end (write_start (map Some frames) secondHalf) firstHalf).

(** [processAndDelay(frame)] for a non-zero [playbackFPS]: what is sent, and
    the delay handed to [setTimeout]; [frameProcessingTime] is what the
    clock shows for [processFrame]. *)
Definition processAndDelay (senders : list Sender.t) (playbackFPS : Z)
  (frame : Frame) (frameProcessingTime : Z) : list event * Q :=
  let targetFrameDuration := (1000 / inject_Z playbackFPS)%Q in
  (processFrame senders frame,
   Qmax 0 (targetFrameDuration - inject_Z frameProcessingTime)%Q).

End Frames.

(** ** Orders and relations on packets *)

(** [b] is not earlier than [a]: its [TS] is not smaller. *)
Definition not_before (a b : Packet.t) : Prop :=
  JS.string_lt (Packet.TS b) (Packet.TS a) = false.

(** The packets of one timestamp. *)
Definition has_TS (ts : string) (p : Packet.t) : bool :=
  String.eqb (Packet.TS p) ts.

(** [p'] is the packet [p] with no channel brighter than it was. *)
Definition dimmed (p p' : Packet.t) : Prop :=
  Packet.TS p' = Packet.TS p /\ Packet.U p' = Packet.U p
  /\ Packet.S p' = Packet.S p /\ Packet.N p' = Packet.N p
  /\ Forall2 (fun v v' => 0 <= v' <= v) (Packet.data p) (Packet.data p').

(** * Concrete recordings and configurations *)

Module Scenario.

(** Two outputs that both carry universe 5. *)
Definition two_outputs : list Output :=
  [ {| output_ip := "192.168.2.20"; output_universe := [5] |};
    {| output_ip := "192.168.2.22"; output_universe := [5] |} ].

Definition sender_20 : Sender.t := Sender.mk "192.168.2.20" 5 0 0.
Definition sender_22 : Sender.t := Sender.mk "192.168.2.22" 5 0 0.

(** The recorder after its constructor, listening to universes 1, 2 and 5. *)
Definition idle : Recorder.State :=
  {| Recorder.inputUnis := [1; 2; 5];
     Recorder.outputs := two_outputs;
     Recorder.senders := Recorder.createSenders two_outputs;
     Recorder.verbose := false;
     Recorder.playbackFPS := 30;
     Recorder.playing := false;
     Recorder.recording := false;
     Recorder.passthrough := true;
     Recorder.metadata := None;
     Recorder.playerMeta := None;
     Recorder.playerContent := None;
     Recorder.timeout := 1;
     Recorder.gzip := None;
     Recorder.out := [] |}.

(** Recording and playing at once, passthrough on: a recording was started
    and a playback is running. *)
Definition recording_and_playing : Recorder.State :=
  Recorder.set_playing true (Recorder.record 1712346460000 1712346460001 idle).

(** Three packets of universes 1 and 2, captured at 0, 50 and 120 ms. *)
Definition at_0 : Packet.t := Packet.mk "1970-01-01T00:00:00.000Z" 1 0 0 [10; 20].
Definition at_50 : Packet.t := Packet.mk "1970-01-01T00:00:00.050Z" 2 0 0 [30; 40].
Definition at_120 : Packet.t := Packet.mk "1970-01-01T00:00:00.120Z" 1 0 0 [50; 60].
Definition three_packets : list Packet.t := [at_0; at_50; at_120].

(** Four packets of universe 5 and the state that plays them. *)
Definition u5 (ts : string) (value : Z) : Packet.t := Packet.mk ts 5 0 0 [value].
Definition four_packets : list Packet.t :=
  [ u5 "1970-01-01T00:00:00.000Z" 0;
    u5 "1970-01-01T00:00:00.050Z" 200;
    u5 "1970-01-01T00:00:00.100Z" 0;
    u5 "1970-01-01T00:00:00.150Z" 100 ].

Definition loaded_four : Recorder.State :=
  Recorder.set_player None (Some four_packets) idle.

Definition playing_four : Recorder.State :=
  Recorder.set_playing true loaded_four.

Definition loaded_three : Recorder.State :=
  Recorder.set_player None (Some three_packets) idle.

(** A tail frame and a head frame with different addresses. *)
Definition tail_frame : Frames.Frame :=
  {| Frames.delay := 0; Frames.packet := [at_0] |}.
Definition head_frame : Frames.Frame :=
  {| Frames.delay := 0; Frames.packet := [at_50] |}.

(** A recording session: three packets arrive, the second and the third
    stamped 50 ms before the first and at the same millisecond. *)
Definition inbound_three : list (Z * list Z * Z) :=
  [ (1, [10; 20], 1712346460100);
    (2, [30; 40], 1712346460050);
    (1, [50; 60], 1712346460050) ].

Definition session : result Recorder.State :=
  Recorder.capture inbound_three
    (Recorder.record 1712346460000 1712346460001 idle).

(** The text in the stream when the process dies before [close()]. *)
Definition unclosed_text : string :=
  match session with
  | Ok st => match Recorder.gzip st with Some text => text | None => "" end
  | Throw _ => ""
  end.

(** The same text cut nine characters earlier, inside the last record. *)
Definition truncated_text : string :=
  String.substring 0 (String.length unclosed_text - 9) unclosed_text.

(** The text of the file after [close()]. *)
Definition closed_text : string := (unclosed_text ++ "]") ++ Json.newline.

Definition loaded_state : Recorder.State :=
  match Recorder.handleFileData [closed_text] idle with
  | Ok st => st
  | Throw _ => idle
  end.

(** The configuration of [src/player.ts] with its second output alone: the
    recorder listens to universes 0 to 33 and sends universes 10 to 19 to
    one address.  The recorder after its constructor and while it plays, and
    a packet as the listener of universe 19 builds it. *)
Definition upper_output : list Output :=
  [ {| output_ip := "192.168.2.22";
       output_universe := [10; 11; 12; 13; 14; 15; 16; 17; 18; 19] |} ].

Definition upper_idle : Recorder.State :=
  {| Recorder.inputUnis := map Z.of_nat (seq 0 34);
     Recorder.outputs := upper_output;
     Recorder.senders := Recorder.createSenders upper_output;
     Recorder.verbose := false;
     Recorder.playbackFPS := 30;
     Recorder.playing := false;
     Recorder.recording := false;
     Recorder.passthrough := true;
     Recorder.metadata := None;
     Recorder.playerMeta := None;
     Recorder.playerContent := None;
     Recorder.timeout := 1;
     Recorder.gzip := None;
     Recorder.out := [] |}.

Definition upper_playing : Recorder.State := Recorder.set_playing true upper_idle.

Definition at_universe_19 : Packet.t :=
  Packet.mk "1970-01-01T00:00:00.000Z" 19 1 0 [255].

End Scenario.

(** * Properties *)

(** ** Lists *)

Lemma nth_error_mapi_from {A B : Type} (f : nat -> A -> B) (l : list A) :
  forall k i, nth_error (mapi_from f k l) i = option_map (f (k + i)%nat) (nth_error l i).
Proof.
  induction l as [|a l IH]; intros k i.
  - destruct i; reflexivity.
  - destruct i; simpl.
    + rewrite Nat.add_0_r. reflexivity.
    + rewrite IH. replace (S k + i)%nat with (k + S i)%nat by lia. reflexivity.
Qed.

Lemma nth_error_mapi {A B : Type} (f : nat -> A -> B) (l : list A) (i : nat) :
  nth_error (mapi f l) i = option_map (f i) (nth_error l i).
Proof. unfold mapi. rewrite nth_error_mapi_from. reflexivity. Qed.

(** ** C10: the listener while playing *)

(** C10.  While [playing] is set, the inbound-packet handler returns right
    after re-arming the idle timer: nothing is written to the recording
    stream and nothing is sent to any output, whatever [recording] and
    [passthrough] say. *)
Theorem inbound_dropped_while_playing :
  forall (universe : Z) (channels : list Z) (now : Z) (st : Recorder.State),
    Recorder.playing st = true ->
    Recorder.on_data universe channels now st = Ok (Recorder.checkForTimeout st)
    /\ Recorder.gzip (Recorder.checkForTimeout st) = Recorder.gzip st
    /\ Recorder.out (Recorder.checkForTimeout st) = Recorder.out st.
Proof.
  intros universe channels now st Hplaying.
  unfold Recorder.on_data.
  replace (Recorder.playing (Recorder.checkForTimeout st)) with true
    by (symmetry; exact Hplaying).
  repeat split.
Qed.

Lemma inbound_dropped_while_playing_witness :
  Recorder.recording Scenario.recording_and_playing = true
  /\ Recorder.passthrough Scenario.recording_and_playing = true
  /\ Recorder.on_data 5 [255] 1712346460100 Scenario.recording_and_playing
     = Ok (Recorder.checkForTimeout Scenario.recording_and_playing)
  /\ Recorder.gzip (Recorder.checkForTimeout Scenario.recording_and_playing)
     = Recorder.gzip Scenario.recording_and_playing
  /\ Recorder.out (Recorder.checkForTimeout Scenario.recording_and_playing)
     = Recorder.out Scenario.recording_and_playing.
Proof.
  split; [reflexivity|]. split; [reflexivity|].
  apply (inbound_dropped_while_playing 5 [255] 1712346460100
           Scenario.recording_and_playing).
  reflexivity.
Defined.

(** The same packet when nothing is playing: it is recorded and passed on
    to both senders of universe 5. *)
Example inbound_when_not_playing :
  exists st',
    Recorder.on_data 5 [255] 1712346460100
      (Recorder.record 1712346460000 1712346460001 Scenario.idle) = Ok st'
    /\ Recorder.out st'
       = [Transmit Scenario.sender_20 [255]; Transmit Scenario.sender_22 [255]]
    /\ Recorder.gzip st'
       <> Recorder.gzip (Recorder.record 1712346460000 1712346460001 Scenario.idle).
Proof.
  eexists. split; [reflexivity|]. split; [reflexivity|].
  vm_compute. discriminate.
Qed.

(** ** C9: stop() and the playback loop *)

Lemma stop_clears_playing (st : Recorder.State) :
  Recorder.playing (Recorder.stop st) = false
  /\ Recorder.out (Recorder.stop st) = Recorder.out st.
Proof. split; reflexivity. Qed.





(** Without the call the same script keeps the loop transmitting. *)
Example playback_goes_on_without_stop :
  let t := {| Recorder.processingTime := 1; Recorder.arrivals := [] |} in
  exists st i pending,
    Recorder.run Scenario.four_packets (Recorder.delays Scenario.four_packets)
      [t; t; t] [] Scenario.playing_four 1 = Recorder.Running st i pending
    /\ List.length (Recorder.out st) = 3%nat.
Proof. intros t. eexists. eexists. eexists. split; reflexivity. Qed.

(** ** C3: which senders a played packet reaches *)

(** C3, the loop of [src/index.ts] at the configuration of scenario D (two
    outputs carrying universe 5) and a packet of universe 5: [find] yields
    the first matching sender and the packet is transmitted to it alone,
    while both senders match (the fade has halved the packet's value
    before); the passthrough path of the same class and
    [processFrame] of the frame-based iteration transmit to both. *)
Theorem loop_transmits_to_first_sender_only :
  let packet := Scenario.u5 "1970-01-01T00:00:00.050Z" 200 in
  filter (Recorder.matches packet) (Recorder.senders Scenario.loaded_four)
    = [Scenario.sender_20; Scenario.sender_22]
  /\ (exists st tempBuffer ds st' sleep,
        Recorder.loop_prepare Scenario.loaded_four
          = Ok (Recorder.Ready st tempBuffer ds)
        /\ nth_error tempBuffer 1
           = Some (Scenario.u5 "1970-01-01T00:00:00.050Z" 100)
        /\ Recorder.loop_iteration tempBuffer ds st 1 0
           = Recorder.Next st' 2%nat sleep
        /\ Recorder.out st' = [Transmit Scenario.sender_20 [100]])
  /\ Frames.processFrame (Recorder.senders Scenario.playing_four)
       {| Frames.delay := 0; Frames.packet := [packet] |}
     = [Transmit Scenario.sender_20 [200]; Transmit Scenario.sender_22 [200]]
  /\ (exists st',
        Recorder.on_data 5 [200] 50 Scenario.idle = Ok st'
        /\ Recorder.out st'
           = [Transmit Scenario.sender_20 [200]; Transmit Scenario.sender_22 [200]]).
Proof.
  intros packet. split; [reflexivity|]. split; [|split].
  - do 5 eexists. split; [vm_compute; reflexivity|].
    split; [reflexivity|]. split; reflexivity.
  - reflexivity.
  - eexists. split; reflexivity.
Qed.

(** [processFrame] reaches every sender its filter accepts, once per packet. *)
Lemma processFrame_fans_out senders frame packet sender :
  In packet (Frames.packet frame) ->
  In sender senders ->
  Frames.matches packet sender = true ->
  In (Transmit sender (Packet.data packet)) (Frames.processFrame senders frame).
Proof.
  intros Hp Hs Hm. unfold Frames.processFrame.
  apply in_flat_map. exists packet. split; [exact Hp|].
  apply (in_map (fun s => Transmit s (Packet.data packet))).
  apply filter_In. split; assumption.
Qed.

(** ** C4: what the loop sleeps *)

(** At the second of four packets, recorded 50 ms after the first: with a
    processing time of 0 ms the loop sleeps 48 ms, not
    [max(0, 50 - 0) = 50]; with a processing time of 48 ms it does not sleep
    at all where [max(0, 50 - 48)] is 2.  The frame-based [processAndDelay]
    sleeps by the playback rate: at 30 frames per second and 3 ms of
    processing, [1000/30 - 3] ms whatever the frame. *)
Lemma sleep_is_not_the_residual_delay :
  nth_error (Recorder.delays Scenario.four_packets) 1 = Some (Some 50)
  /\ (exists st',
        Recorder.loop_iteration Scenario.four_packets
          (Recorder.delays Scenario.four_packets) Scenario.playing_four 1 0
        = Recorder.Next st' 2%nat (Some 48))
  /\ Z.max 0 (50 - 0) <> 48
  /\ (exists st',
        Recorder.loop_iteration Scenario.four_packets
          (Recorder.delays Scenario.four_packets) Scenario.playing_four 1 48
        = Recorder.Next st' 2%nat None)
  /\ Z.max 0 (50 - 48) <> 0
  /\ (snd (Frames.processAndDelay [] 30 Scenario.tail_frame 3) == 91 # 3)%Q.
Proof.
  split; [reflexivity|].
  split; [eexists; reflexivity|].
  split; [discriminate|].
  split; [eexists; reflexivity|].
  split; [discriminate|].
  reflexivity.
Qed.

(** C4, as the code has it.  At every index [i] but the last, a playing
    loop transmits packet [i] and then sleeps [delays[i] - processingTime - 2]
    ms when [delays[i] - processingTime] exceeds 2, and does not sleep
    otherwise; [delays[i]] is the recorded gap between the timestamps of
    packet [i] and packet [i - 1].  In the frame-based iteration
    [processAndDelay] sleeps [max(0, 1000/playbackFPS - processingTime)],
    the same for every frame. *)
Theorem loop_sleeps_recorded_gap_less_two :
  forall tempBuffer st i packet processingTime,
    Recorder.playing st = true ->
    nth_error tempBuffer i = Some packet ->
    (S i < List.length tempBuffer)%nat ->
    Recorder.loop_iteration tempBuffer (Recorder.delays tempBuffer) st i
      processingTime
    = Recorder.Next
        (Recorder.transmitData
           (JS.find (Recorder.matches packet) (Recorder.senders st))
           (Packet.data packet) st)
        (S i)
        (Recorder.sleep_for (Recorder.delay_at tempBuffer i packet) processingTime)
    /\ (forall d,
          Recorder.delay_at tempBuffer i packet = Some d ->
          Recorder.sleep_for (Recorder.delay_at tempBuffer i packet) processingTime
          = if 2 <? d - processingTime then Some (d - processingTime - 2) else None)
    /\ (forall j prev,
          i = S j -> nth_error tempBuffer j = Some prev ->
          Recorder.delay_at tempBuffer i packet
          = Recorder.num_sub (Date.getTime (Packet.TS packet))
                             (Date.getTime (Packet.TS prev)))
    /\ (forall senders playbackFPS frame frame' frameProcessingTime,
          snd (Frames.processAndDelay senders playbackFPS frame frameProcessingTime)
          = Qmax 0 (1000 / inject_Z playbackFPS - inject_Z frameProcessingTime)%Q
          /\ snd (Frames.processAndDelay senders playbackFPS frame' frameProcessingTime)
             = snd (Frames.processAndDelay senders playbackFPS frame frameProcessingTime)).
Proof.
  intros tempBuffer st i packet processingTime Hplaying Hpacket Hnotlast.
  split; [|split; [|split]].
  - unfold Recorder.loop_iteration. rewrite Hpacket, Hplaying. simpl negb. cbv iota.
    replace (i =? List.length tempBuffer - 1)%nat with false
      by (symmetry; apply Nat.eqb_neq; lia).
    unfold Recorder.delays. rewrite nth_error_mapi, Hpacket. reflexivity.
  - intros d ->. reflexivity.
  - intros j prev -> Hprev. simpl. rewrite Hprev. reflexivity.
  - intros. split; reflexivity.
Qed.

Lemma loop_sleeps_recorded_gap_less_two_witness :
  Recorder.loop_iteration Scenario.four_packets
    (Recorder.delays Scenario.four_packets) Scenario.playing_four 1 7
  = Recorder.Next
      (Recorder.transmitData (Some Scenario.sender_20) [200] Scenario.playing_four)
      2%nat (Some 41).
Proof.
  exact (proj1 (loop_sleeps_recorded_gap_less_two
                  Scenario.four_packets Scenario.playing_four 1
                  (Scenario.u5 "1970-01-01T00:00:00.050Z" 200) 7
                  eq_refl eq_refl (ltac:(simpl; lia)))).
Defined.

(** ** C7: the fade on a short recording *)

Lemma fold_fade_throw steps totalPackets e (steps_list : list nat) :
  fold_left (fun acc i => buf <- acc ;; Recorder.fade_step steps totalPackets buf i)
            steps_list (Throw e) = Throw e.
Proof. induction steps_list as [|i l IH]; simpl; [reflexivity|exact IH]. Qed.

(** C7 at a recording of three packets, shorter than the 600 packets of
    the two fades: the fade length is clamped to [3 / 2 = 1.5], which is not
    an integer, so the first packet of the fade-out is looked up at index
    [3 - 1.5 + 0 = 1.5]; that element is undefined and reading its [data]
    throws.  [loop()] ends there with a TypeError, before any packet is
    played. *)
Theorem fade_throws_on_three_packets :
  (Recorder.actualFadeSteps 3 == 3 # 2)%Q
  /\ JS.index Scenario.three_packets (3 - (3 # 2) + 0)%Q = None
  /\ Recorder.fade Scenario.three_packets = Throw TypeError
  /\ Recorder.loop_prepare Scenario.loaded_three = Throw TypeError.
Proof. repeat split. Qed.

(** With an even number of packets the same fade goes through. *)
Example fade_on_four_packets :
  Recorder.fade Scenario.four_packets
  = Ok [ Scenario.u5 "1970-01-01T00:00:00.000Z" 0;
         Scenario.u5 "1970-01-01T00:00:00.050Z" 100;
         Scenario.u5 "1970-01-01T00:00:00.100Z" 0;
         Scenario.u5 "1970-01-01T00:00:00.150Z" 50 ].
Proof. reflexivity. Qed.

(** *** Every odd count throws, every even count goes through *)

Lemma Qhalf (x : Q) : (x / 2 == x * (1 # 2))%Q.
Proof. unfold Qdiv. reflexivity. Qed.

Lemma actualFadeSteps_short (n : nat) :
  (n < 600)%nat ->
  Recorder.actualFadeSteps n = (inject_Z (Z.of_nat n) / 2)%Q.
Proof.
  intros Hn. unfold Recorder.actualFadeSteps, Qmin, GenericMinMax.gmin.
  assert (H : (Recorder.fadeInOutSteps ?= inject_Z (Z.of_nat n) / 2)%Q = Gt).
  { apply Qgt_alt. unfold Recorder.fadeInOutSteps.
    assert (Hq : (inject_Z (Z.of_nat n) < 600)%Q).
    { change 600%Q with (inject_Z 600). rewrite <- Zlt_Qlt. lia. }
    rewrite Qhalf. lra. }
  rewrite H. reflexivity.
Qed.

Lemma half_of_odd_is_no_index {A : Type} (arr : list A) (n : Z) :
  Z.odd n = true ->
  JS.index arr (inject_Z n - inject_Z n / 2 + inject_Z 0)%Q = None.
Proof.
  intros Hodd. unfold JS.index.
  destruct (Qeq_bool _ _) eqn:E; [|reflexivity].
  exfalso. apply Qeq_bool_iff in E.
  set (z := Qfloor (inject_Z n - inject_Z n / 2 + inject_Z 0)) in *.
  assert (H : (inject_Z (2 * z) == inject_Z n)%Q).
  { rewrite inject_Z_mult. change (inject_Z 0) with 0%Q in E.
    change (inject_Z 2) with 2%Q. rewrite Qhalf in E. lra. }
  unfold Qeq in H. cbn [Qnum Qden inject_Z] in H. rewrite !Z.mul_1_r in H.
  rewrite <- H, Z.odd_mul in Hodd. discriminate.
Qed.

Lemma replace_nth_length {A : Type} (l : list A) (i : nat) (x : A) :
  List.length (replace_nth l i x) = List.length l.
Proof.
  revert i. induction l as [|a l IH]; intros [|i]; simpl; auto.
Qed.

Lemma ceiling_of_positive (x : Q) :
  (0 < x)%Q -> exists m, Z.to_nat (Qceiling x) = S m.
Proof.
  intros Hx. pose proof (Qle_ceiling x) as Hle.
  assert (H : (0 < inject_Z (Qceiling x))%Q) by lra.
  change 0%Q with (inject_Z 0) in H. rewrite <- Zlt_Qlt in H.
  exists (Z.to_nat (Qceiling x) - 1)%nat. lia.
Qed.

Lemma odd_of_nat (n : nat) :
  Z.odd (Z.of_nat n) = Nat.odd n /\ Z.even (Z.of_nat n) = Nat.even n.
Proof.
  induction n as [|n [IHo IHe]]; [split; reflexivity|].
  rewrite Nat2Z.inj_succ, Z.odd_succ, Z.even_succ, Nat.odd_succ, Nat.even_succ.
  split; assumption.
Qed.

(** The failure is not special to three packets: with any odd number of
    packets below 600 the first turn of the fade reads an index that ends in
    one half. *)
Lemma fade_throws_on_odd_count (tempBuffer : list Packet.t) :
  Nat.odd (List.length tempBuffer) = true ->
  (List.length tempBuffer < 600)%nat ->
  Recorder.fade tempBuffer = Throw TypeError.
Proof.
  intros Hodd Hshort. unfold Recorder.fade.
  rewrite (actualFadeSteps_short _ Hshort).
  destruct tempBuffer as [|p rest]; [discriminate|].
  remember (List.length (p :: rest)) as n eqn:Hn.
  assert (Hsteps : (0 < inject_Z (Z.of_nat n) / 2)%Q).
  { assert (0 < inject_Z (Z.of_nat n))%Q.
    { change 0%Q with (inject_Z 0). rewrite <- Zlt_Qlt. simpl in Hn. lia. }
    rewrite Qhalf. lra. }
  destruct (ceiling_of_positive _ Hsteps) as [m ->].
  cbn [seq fold_left bind].
  replace (Recorder.fade_step (inject_Z (Z.of_nat n) / 2) n (p :: rest) 0)
    with (@Throw (list Packet.t) TypeError).
  { apply fold_fade_throw. }
  unfold Recorder.fade_step, Recorder.update_data.
  cbn [Z.of_nat]. change (JS.index (p :: rest) (inject_Z 0)) with (Some p).
  cbn [bind].
  rewrite half_of_odd_is_no_index; [reflexivity|].
  rewrite <- Hodd. apply odd_of_nat.
Qed.

Lemma fade_throws_on_odd_count_witness :
  Nat.odd (List.length [Scenario.at_0]) = true
  /\ (List.length [Scenario.at_0] < 600)%nat
  /\ Recorder.fade [Scenario.at_0] = Throw TypeError.
Proof.
  assert (Hshort : (List.length [Scenario.at_0] < 600)%nat) by (cbn; lia).
  split; [reflexivity|]. split; [exact Hshort|].
  apply (fade_throws_on_odd_count [Scenario.at_0] eq_refl Hshort).
Defined.

Lemma index_of_integer {A : Type} (arr : list A) (q : Q) (z : Z) :
  (q == inject_Z z)%Q -> 0 <= z ->
  JS.index arr q = nth_error arr (Z.to_nat z).
Proof.
  intros Hq Hz. unfold JS.index.
  assert (Hfloor : Qfloor q = z) by (rewrite (Qfloor_comp _ _ Hq); apply Qfloor_Z).
  rewrite Hfloor.
  replace (Qeq_bool (inject_Z z) q) with true
    by (symmetry; apply Qeq_bool_iff; symmetry; exact Hq).
  replace (0 <=? z) with true by (symmetry; apply Z.leb_le; exact Hz).
  reflexivity.
Qed.

Lemma update_data_in_range (tempBuffer : list Packet.t) (q : Q) (z : Z) f :
  (q == inject_Z z)%Q -> 0 <= z < Z.of_nat (List.length tempBuffer) ->
  exists tempBuffer',
    Recorder.update_data tempBuffer q f = Ok tempBuffer'
    /\ List.length tempBuffer' = List.length tempBuffer.
Proof.
  intros Hq Hz. unfold Recorder.update_data.
  rewrite (index_of_integer tempBuffer q z Hq) by lia.
  destruct (nth_error tempBuffer (Z.to_nat z)) as [p|] eqn:Hp.
  - eexists. split; [reflexivity|]. apply replace_nth_length.
  - apply nth_error_None in Hp. lia.
Qed.

Lemma actualFadeSteps_even (n : nat) :
  Nat.even n = true ->
  exists k, (Recorder.actualFadeSteps n == inject_Z k)%Q
            /\ 0 <= k /\ 2 * k <= Z.of_nat n.
Proof.
  intros Heven. apply Nat.even_spec in Heven as [h ->].
  unfold Recorder.actualFadeSteps, Recorder.fadeInOutSteps.
  assert (Hhalf : (inject_Z (Z.of_nat (2 * h)) / 2 == inject_Z (Z.of_nat h))%Q).
  { rewrite Nat2Z.inj_mul, inject_Z_mult, Qhalf.
    change (inject_Z (Z.of_nat 2)) with 2%Q. field. }
  destruct (Q.min_spec 300 (inject_Z (Z.of_nat (2 * h)) / 2))
    as [[Hlt Heq]|[Hle Heq]].
  - exists 300. split; [exact Heq|]. split; [lia|].
    rewrite Hhalf in Hlt. change 300%Q with (inject_Z 300) in Hlt.
    rewrite <- Zlt_Qlt in Hlt. lia.
  - exists (Z.of_nat h). split; [rewrite Heq; exact Hhalf|]. lia.
Qed.

(** With an even number of packets the clamped fade length is an integer,
    every index it reads is in range and the fade keeps the length of the
    buffer. *)
Lemma fade_goes_through_on_even_count (tempBuffer : list Packet.t) :
  Nat.even (List.length tempBuffer) = true ->
  exists faded,
    Recorder.fade tempBuffer = Ok faded
    /\ List.length faded = List.length tempBuffer.
Proof.
  intros Heven. unfold Recorder.fade.
  destruct (actualFadeSteps_even _ Heven) as (k & Hk & Hk0 & Hk2).
  remember (List.length tempBuffer) as n eqn:Hn.
  remember (Recorder.actualFadeSteps n) as steps eqn:Hsteps.
  assert (Hceil : Qceiling steps = k).
  { unfold Qceiling. 
    assert (E : (- steps == inject_Z (- k))%Q) by (rewrite Hk, inject_Z_opp; reflexivity).
    rewrite (Qfloor_comp _ _ E), Qfloor_Z. lia. }
  rewrite Hceil.
  assert (Hloop : forall (ixs : list nat) (buf : list Packet.t),
             Forall (fun i => Z.of_nat i < k) ixs ->
             List.length buf = n ->
             exists faded,
               fold_left (fun acc i => buf <- acc ;; Recorder.fade_step steps n buf i)
                         ixs (Ok buf) = Ok faded
               /\ List.length faded = n).
  { induction ixs as [|i ixs IH]; intros buf Hall Hlen.
    - exists buf. split; [reflexivity|exact Hlen].
    - pose proof (Forall_inv Hall) as Hi. pose proof (Forall_inv_tail Hall) as Hrest.
      cbv beta in Hi.
      cbn [fold_left bind]. unfold Recorder.fade_step at 2.
      destruct (update_data_in_range buf (inject_Z (Z.of_nat i)) (Z.of_nat i)
                  (Recorder.scale (Double.div (Double.of_Z (Z.of_nat i)) steps)))
        as (buf1 & -> & Hlen1); [reflexivity|lia|].
      cbn [bind].
      destruct (update_data_in_range buf1
                  (inject_Z (Z.of_nat n) - steps + inject_Z (Z.of_nat i))
                  (Z.of_nat n - k + Z.of_nat i)
                  (Recorder.scale
                     (Double.sub 1 (Double.div (Double.of_Z (Z.of_nat i)) steps))))
        as (buf2 & -> & Hlen2).
      + rewrite Hk. unfold Z.sub. rewrite !inject_Z_plus, inject_Z_opp. reflexivity.
      + lia.
      + apply IH; [exact Hrest|]. rewrite Hlen2, Hlen1. exact Hlen. }
  apply Hloop; [|symmetry; exact Hn].
  apply Forall_forall. intros i Hi. apply in_seq in Hi. lia.
Qed.

Lemma fade_goes_through_on_even_count_witness :
  Nat.even (List.length [Scenario.at_0; Scenario.at_50]) = true
  /\ exists faded,
       Recorder.fade [Scenario.at_0; Scenario.at_50] = Ok faded
       /\ List.length faded = List.length [Scenario.at_0; Scenario.at_50].
Proof.
  split; [reflexivity|].
  apply (fade_goes_through_on_even_count [Scenario.at_0; Scenario.at_50] eq_refl).
Defined.

(** ** C6: a tail packet without a head packet of its address *)

(** The tail frame holds a packet of universe 1, the head frame only one of
    universe 2: the interpolated frame is empty, the tail packet is not in
    it. *)
Lemma unmatched_tail_packet_is_dropped :
  JS.find (Frames.same_address Scenario.at_0) (Frames.packet Scenario.head_frame)
    = None
  /\ Frames.interpolateFrames 0 (Some Scenario.tail_frame)
       (Some Scenario.head_frame) 0 30
     = Ok {| Frames.delay := 0; Frames.packet := [] |}.
Proof. split; reflexivity. Qed.

Lemma same_address_interpolated now packet1 packet2 step totalSteps p :
  Frames.same_address p
    (Frames.interpolatedPacket now packet1 packet2 step totalSteps)
  = Frames.same_address p packet1.
Proof. reflexivity. Qed.

Lemma same_address_find packet1 packet1' packets :
  Frames.same_address packet1 packet1' = true ->
  JS.find (Frames.same_address packet1) packets
  = JS.find (Frames.same_address packet1') packets.
Proof.
  unfold Frames.same_address. intros H.
  apply andb_prop in H as [H HN]. apply andb_prop in H as [HU HS].
  apply Z.eqb_eq in HU, HS, HN.
  unfold JS.find. induction packets as [|q qs IH]; simpl; [reflexivity|].
  rewrite IH, HU, HS, HN. reflexivity.
Qed.

(** The packets of the interpolated frame, in the order of [frame1]: one for
    each packet of [frame1] that has a packet of its address in [frame2]. *)
Lemma interpolate_packets_spec now packets1 f2 step totalSteps :
  Frames.interpolate_packets now packets1 (Some f2) step totalSteps
  = Ok (flat_map
          (fun packet1 =>
             match JS.find (Frames.same_address packet1) (Frames.packet f2) with
             | Some packet2 =>
                 [Frames.interpolatedPacket now packet1 packet2 step totalSteps]
             | None => []
             end)
          packets1).
Proof.
  induction packets1 as [|packet1 rest IH]; simpl; [reflexivity|].
  rewrite IH. simpl.
  destruct (JS.find (Frames.same_address packet1) (Frames.packet f2));
    reflexivity.
Qed.

(** C6, as the code has it.  [interpolateFrames] keeps, in order, exactly
    the packets of the tail frame that have a packet of the same address in
    the head frame (interpolated); a tail packet whose address is absent
    from the head frame is skipped, and no packet of its address is in the
    interpolated frame. *)
Theorem unmatched_address_is_skipped :
  forall now frame1 frame2 step totalSteps packet1,
    In packet1 (Frames.packet frame1) ->
    JS.find (Frames.same_address packet1) (Frames.packet frame2) = None ->
    exists frame,
      Frames.interpolateFrames now (Some frame1) (Some frame2) step totalSteps
        = Ok frame
      /\ Frames.packet frame
         = flat_map
             (fun p1 =>
                match JS.find (Frames.same_address p1) (Frames.packet frame2) with
                | Some p2 => [Frames.interpolatedPacket now p1 p2 step totalSteps]
                | None => []
                end)
             (Frames.packet frame1)
      /\ forall q, In q (Frames.packet frame) ->
                   Frames.same_address packet1 q = false.
Proof.
  intros now frame1 frame2 step totalSteps packet1 Hin Hnone.
  unfold Frames.interpolateFrames. rewrite interpolate_packets_spec. simpl.
  eexists. split; [reflexivity|]. split; [reflexivity|].
  simpl. intros q Hq. apply in_flat_map in Hq as [p1 [Hp1 Hq]].
  destruct (JS.find (Frames.same_address p1) (Frames.packet frame2))
    as [p2|] eqn:Hfind; [|contradiction].
  destruct Hq as [<-|[]].
  rewrite same_address_interpolated.
  destruct (Frames.same_address packet1 p1) eqn:Hsame; [|reflexivity].
  rewrite (same_address_find packet1 p1 _ Hsame) in Hnone. congruence.
Qed.

Lemma unmatched_address_is_skipped_witness :
  exists frame,
    Frames.interpolateFrames 0 (Some Scenario.tail_frame)
      (Some Scenario.head_frame) 3 30 = Ok frame
    /\ Frames.packet frame = []
    /\ forall q, In q (Frames.packet frame) ->
                 Frames.same_address Scenario.at_0 q = false.
Proof.
  exact (unmatched_address_is_skipped 0 Scenario.tail_frame Scenario.head_frame
           3 30 Scenario.at_0 (or_introl eq_refl) eq_refl).
Defined.

(** ** C2: frames and delays of the three-packet recording *)

(** Scenario A on the code: two frames, but both carry delay 0, and the
    delays the player times its playback by are three, one per packet. *)
Lemma scenario_A_delays_are_not_0_50 :
  Frames.recordedUniverses Scenario.three_packets = 2%nat
  /\ map Frames.delay
       (Frames.prepareFrames Scenario.three_packets
          (Frames.recordedUniverses Scenario.three_packets)) = [0; 0]
  /\ map Frames.delay
       (Frames.prepareFrames Scenario.three_packets
          (Frames.recordedUniverses Scenario.three_packets)) <> [0; 50]
  /\ Recorder.delays (JS.sort Recorder.by_TS Scenario.three_packets)
     = [Some 0; Some 50; Some 70]
  /\ Recorder.delays (JS.sort Recorder.by_TS Scenario.three_packets)
     <> [Some 0; Some 50].
Proof.
  split; [reflexivity|]. split; [reflexivity|]. split; [discriminate|].
  split; [reflexivity|discriminate].
Qed.

Lemma prepareFrames_from_delay fuel playerContent size :
  forall i frame,
    In frame (Frames.prepareFrames_from fuel playerContent size i) ->
    Frames.delay frame = 0.
Proof.
  induction fuel as [|fuel IH]; intros i frame Hin; simpl in Hin; [contradiction|].
  destruct (i <? List.length playerContent)%nat; [|contradiction].
  destruct Hin as [<-|Hin]; [reflexivity|].
  exact (IH _ _ Hin).
Qed.

(** C2, as the code has it.  For the recording of scenario A the frame
    builder yields exactly two frames, the chunks [packets 0,1] and
    [packet 2] of the sorted sequence (k = 2), and both have delay 0, as has
    every frame [prepareFrames] ever builds.  The delays that time the
    playback are computed per packet: [0, 50, 70] here, and in general 0 for
    packet 0 and, for every packet i > 0, the difference of the timestamps of
    packet i and packet i - 1, not clamped. *)
Theorem scenario_A_frames_and_delays :
  Frames.prepareFrames Scenario.three_packets
    (Frames.recordedUniverses Scenario.three_packets)
  = [ {| Frames.delay := 0; Frames.packet := [Scenario.at_0; Scenario.at_50] |};
      {| Frames.delay := 0; Frames.packet := [Scenario.at_120] |} ]
  /\ (forall playerContent size frame,
        In frame (Frames.prepareFrames playerContent size) ->
        Frames.delay frame = 0)
  /\ Recorder.delays (JS.sort Recorder.by_TS Scenario.three_packets)
     = [Some 0; Some 50; Some 70]
  /\ (forall tempBuffer,
        List.length (Recorder.delays tempBuffer) = List.length tempBuffer
        /\ (forall packet, nth_error tempBuffer 0 = Some packet ->
                           nth_error (Recorder.delays tempBuffer) 0 = Some (Some 0))
        /\ (forall i packet prev,
              nth_error tempBuffer (S i) = Some packet ->
              nth_error tempBuffer i = Some prev ->
              nth_error (Recorder.delays tempBuffer) (S i)
              = Some (Recorder.num_sub (Date.getTime (Packet.TS packet))
                                       (Date.getTime (Packet.TS prev))))).
Proof.
  split; [reflexivity|]. split; [|split; [reflexivity|]].
  - intros playerContent size frame Hin.
    exact (prepareFrames_from_delay _ _ _ _ _ Hin).
  - intros tempBuffer. split; [|split].
    + unfold Recorder.delays, mapi. generalize 0%nat.
      generalize (Recorder.delay_at tempBuffer).
      induction tempBuffer as [|p l IH]; intros f k; simpl; [reflexivity|].
      now rewrite IH.
    + intros packet H. unfold Recorder.delays. rewrite nth_error_mapi, H.
      reflexivity.
    + intros i packet prev Hp Hprev. unfold Recorder.delays.
      rewrite nth_error_mapi, Hp. simpl. rewrite Hprev. reflexivity.
Qed.

(** The differences are not clamped: on a buffer that is not in time order
    a delay is negative. *)
Example delay_can_be_negative :
  Recorder.delays [Scenario.at_50; Scenario.at_0] = [Some 0; Some (-50)].
Proof. reflexivity. Qed.

(** ** Binary floating point: what rounding does

    The binade of a positive number, the error of one operation and the
    integers that are doubles. *)

Module DoubleFacts.
Import Double.
Local Open Scope Q_scope.

Lemma pow2_pos k : 0 < pow2 k.
Proof. apply Qpower_0_lt. reflexivity. Qed.

Lemma pow2_add j k : pow2 (j + k) == pow2 j * pow2 k.
Proof. apply Qpower_plus. discriminate. Qed.

Lemma pow2_inv k : pow2 k * pow2 (- k) == 1.
Proof. rewrite <- pow2_add, Z.add_opp_diag_r. reflexivity. Qed.

Lemma pow2_Z k : (0 <= k)%Z -> pow2 k == inject_Z (2 ^ k).
Proof. intros H. symmetry. apply (Zpower_Qpower 2 k H). Qed.

Lemma nearest_even_bounds y :
  inject_Z (nearest_even y) - (1 # 2) <= y <= inject_Z (nearest_even y) + (1 # 2).
Proof.
  unfold nearest_even.
  pose proof (Qfloor_le y) as Hl. pose proof (Qlt_floor y) as Hu.
  rewrite inject_Z_plus in Hu. change (inject_Z 1) with 1 in Hu.
  destruct (Qcompare_spec (y - inject_Z (Qfloor y)) (1 # 2)) as [He|Hlt|Hgt].
  - destruct (Z.even (Qfloor y)).
    + lra.
    + rewrite inject_Z_plus. change (inject_Z 1) with 1. lra.
  - lra.
  - rewrite inject_Z_plus. change (inject_Z 1) with 1. lra.
Qed.

Lemma nearest_even_comp y y' : y == y' -> nearest_even y = nearest_even y'.
Proof.
  intros H. unfold nearest_even.
  rewrite (Qfloor_comp _ _ H).
  assert (Hc : (y - inject_Z (Qfloor y') ?= 1 # 2) = (y' - inject_Z (Qfloor y') ?= 1 # 2)).
  { apply Qcompare_comp; [rewrite H; reflexivity | reflexivity]. }
  rewrite Hc. reflexivity.
Qed.

Lemma nearest_even_integer k : nearest_even (inject_Z k) = k.
Proof.
  unfold nearest_even. rewrite Qfloor_Z.
  assert (H : (inject_Z k - inject_Z k ?= 1 # 2) = Lt).
  { apply Qlt_alt. setoid_replace (inject_Z k - inject_Z k) with 0 by ring. reflexivity. }
  rewrite H. reflexivity.
Qed.

(** The logarithms of numerator and denominator bracket a positive rational. *)
Lemma log2_bracket (n d : positive) :
  pow2 (Z.log2 (Zpos n) - Z.log2 (Zpos d) - 1) <= Zpos n # d
  /\ Zpos n # d < pow2 (Z.log2 (Zpos n) - Z.log2 (Zpos d) + 1).
Proof.
  pose proof (Z.log2_spec (Zpos n) eq_refl) as [Hn1 Hn2].
  pose proof (Z.log2_spec (Zpos d) eq_refl) as [Hd1 Hd2].
  pose proof (Z.log2_nonneg (Zpos n)) as Ha.
  pose proof (Z.log2_nonneg (Zpos d)) as Hb.
  set (a := Z.log2 (Zpos n)) in *. set (b := Z.log2 (Zpos d)) in *.
  assert (Hx : Zpos n # d == inject_Z (Zpos n) / inject_Z (Zpos d)).
  { rewrite Qmake_Qdiv. reflexivity. }
  assert (Hdpos : 0 < inject_Z (Zpos d)).
  { change 0 with (inject_Z 0). rewrite <- Zlt_Qlt. reflexivity. }
  split.
  - replace (a - b - 1)%Z with (a + - (b + 1))%Z by lia.
    rewrite pow2_add.
    apply Qmult_le_r with (z := pow2 (b + 1)); [apply pow2_pos|].
    rewrite <- Qmult_assoc. rewrite (Qmult_comm (pow2 (- (b + 1)))). rewrite pow2_inv.
    rewrite Qmult_1_r.
    apply Qmult_le_r with (z := inject_Z (Zpos d)); [exact Hdpos|].
    rewrite Hx.
    assert (He : inject_Z (Z.pos n) / inject_Z (Z.pos d) * pow2 (b + 1) * inject_Z (Z.pos d)
                 == inject_Z (Z.pos n) * pow2 (b + 1)).
    { field. intros H. rewrite H in Hdpos. discriminate. }
    rewrite He. rewrite !pow2_Z by lia. rewrite <- !inject_Z_mult. rewrite <- Zle_Qle. nia.
  - replace (a - b + 1)%Z with ((a + 1) + - b)%Z by lia.
    rewrite pow2_add.
    apply Qmult_lt_r with (z := pow2 b); [apply pow2_pos|].
    rewrite <- Qmult_assoc. rewrite (Qmult_comm (pow2 (- b))). rewrite pow2_inv.
    rewrite Qmult_1_r.
    apply Qmult_lt_r with (z := inject_Z (Zpos d)); [exact Hdpos|].
    rewrite Hx.
    assert (He : inject_Z (Z.pos n) / inject_Z (Z.pos d) * pow2 b * inject_Z (Z.pos d)
                 == inject_Z (Z.pos n) * pow2 b).
    { field. intros H. rewrite H in Hdpos. discriminate. }
    rewrite He. rewrite !pow2_Z by lia. rewrite <- !inject_Z_mult. rewrite <- Zlt_Qlt. nia.
Qed.

(** [exponent x] names the binade of a positive [x]: the significand
    [x / 2^e] has 53 bits. *)
Lemma exponent_spec x :
  0 < x ->
  pow2 52 <= x * pow2 (- exponent x) < pow2 53.
Proof.
  intros Hx. destruct x as [n d].
  assert (Hn : exists p, n = Zpos p).
  { destruct n as [|p|p]; [discriminate Hx| eauto | discriminate Hx]. }
  destruct Hn as [p ->].
  destruct (log2_bracket p d) as [Hlo Hhi].
  unfold exponent. cbn [Qnum Qden].
  set (l := (Z.log2 (Zpos p) - Z.log2 (Zpos d))%Z) in *.
  destruct (Qle_bool (pow2 l) (Zpos p # d)) eqn:Hc.
  - apply Qle_bool_iff in Hc.
    replace (- (l - 52))%Z with (52 + - l)%Z by lia.
    replace (l + 1)%Z with (1 + l)%Z in Hhi by lia.
    rewrite !pow2_add in *.
    pose proof (pow2_inv l) as Hi. pose proof (pow2_pos l) as Hl.
    pose proof (pow2_pos (- l)) as Hl'.
    set (x := Zpos p # d) in *. set (u := pow2 l) in *. set (u' := pow2 (- l)) in *.
    clearbody x u u'. clear Hlo. clear l.
    change (pow2 52) with (4503599627370496 # 1).
    change (pow2 53) with (9007199254740992 # 1). change (pow2 1) with (2 # 1) in *.
    assert (H1 : 1 <= x * u') by (rewrite <- Hi; apply Qmult_le_compat_r; lra).
    assert (H2 : x * u' < 2).
    { setoid_replace 2 with (2 * u * u') by (rewrite <- Qmult_assoc, Hi; lra).
      apply Qmult_lt_compat_r; lra. }
    setoid_replace (x * (4503599627370496 * u')) with (4503599627370496 * (x * u')) by ring.
    set (w := x * u') in *. clearbody w. lra.
  - assert (Hc' : Zpos p # d < pow2 l).
    { apply Qnot_le_lt. intros H. apply Qle_bool_iff in H. congruence. }
    replace (- (l - 53))%Z with (53 + - l)%Z by lia.
    replace (l - 1)%Z with (-1 + l)%Z in Hlo by lia.
    rewrite !pow2_add in *.
    pose proof (pow2_inv l) as Hi. pose proof (pow2_pos l) as Hl.
    pose proof (pow2_pos (- l)) as Hl'.
    set (x := Zpos p # d) in *. set (u := pow2 l) in *. set (u' := pow2 (- l)) in *.
    clearbody x u u'. clear Hhi. clear l.
    change (pow2 52) with (4503599627370496 # 1).
    change (pow2 53) with (9007199254740992 # 1). change (pow2 (-1)) with (1 # 2) in *.
    assert (H1 : (1 # 2) <= x * u').
    { setoid_replace (1 # 2) with ((1 # 2) * u * u') by (rewrite <- Qmult_assoc, Hi; lra).
      apply Qmult_le_compat_r; lra. }
    assert (H2 : x * u' < 1) by (rewrite <- Hi; apply Qmult_lt_compat_r; lra).
    setoid_replace (x * (9007199254740992 * u')) with (9007199254740992 * (x * u')) by ring.
    set (w := x * u') in *. clearbody w. lra.
Qed.

(** [round] depends on the number only, not on the fraction that denotes it. *)
Lemma round_comp x y : x == y -> round x = round y.
Proof.
  intros H. unfold round. rewrite (Qred_complete _ _ H). reflexivity.
Qed.

(** Rounding moves a positive number by at most half a unit of its last
    place, which is at most the fraction [2^-53] of the number. *)
Lemma round_positive_error x :
  0 < x ->
  - (epsilon * x) <= round_positive x - x <= epsilon * x.
Proof.
  intros Hx. unfold round_positive.
  destruct (exponent_spec x Hx) as [Hlo _].
  set (e := exponent x) in *.
  pose proof (nearest_even_bounds (x * pow2 (- e))) as [Hm1 Hm2].
  set (m := inject_Z (nearest_even (x * pow2 (- e)))) in *.
  pose proof (pow2_inv e) as Hi. pose proof (pow2_pos e) as Hc.
  set (c := pow2 e) in *. set (c' := pow2 (- e)) in *.
  change (pow2 52) with (4503599627370496 # 1) in Hlo.
  change epsilon with (1 # 9007199254740992).
  clearbody m c c'. clear e.
  assert (A1 : (m - (1 # 2)) * c <= x * c' * c) by (apply Qmult_le_compat_r; lra).
  assert (A2 : x * c' * c <= (m + (1 # 2)) * c) by (apply Qmult_le_compat_r; lra).
  assert (A3 : 4503599627370496 * c <= x * c' * c) by (apply Qmult_le_compat_r; lra).
  assert (E : x * c' * c == x) by (rewrite <- Qmult_assoc, (Qmult_comm c'), Hi; ring).
  rewrite E in A1, A2, A3.
  set (mc := m * c) in *.
  assert (A1' : mc - (1 # 2) * c <= x) by (unfold mc; lra).
  assert (A2' : x <= mc + (1 # 2) * c) by (unfold mc; lra).
  clearbody mc. lra.
Qed.

Lemma Qnum_sign x :
  match Qnum x with
  | Z0 => x == 0
  | Zpos _ => 0 < x
  | Zneg _ => x < 0
  end.
Proof. destruct x as [[|p|p] d]; reflexivity. Qed.

(** Every operation of [Double] is off by at most the fraction [2^-53] of
    its exact result. *)
Lemma round_error x : Qabs (round x - x) <= epsilon * Qabs x.
Proof.
  unfold round. pose proof (Qred_correct x) as Hr. pose proof (Qnum_sign (Qred x)) as Hs.
  set (x' := Qred x) in *. clearbody x'.
  rewrite <- Hr. clear Hr x.
  destruct (Qnum x').
  - rewrite Hs. apply Qle_bool_iff. reflexivity.
  - rewrite (Qabs_pos x') by lra. apply Qabs_Qle_condition.
    apply round_positive_error. exact Hs.
  - rewrite (Qabs_neg x') by lra. apply Qabs_Qle_condition.
    assert (Hp : 0 < - x') by lra.
    pose proof (round_positive_error (- x') Hp). lra.
Qed.

(** An integer below [2^53] in magnitude is a binary64 number. *)
Lemma round_positive_integer x z :
  x == inject_Z z -> (0 < z < 2 ^ 53)%Z -> round_positive x == inject_Z z.
Proof.
  intros Hx Hz.
  assert (Hpos : 0 < x).
  { rewrite Hx. change 0 with (inject_Z 0). rewrite <- Zlt_Qlt. lia. }
  destruct (exponent_spec x Hpos) as [Hlo _].
  unfold round_positive. set (e := exponent x) in *. clearbody e.
  assert (He : (e <= 0)%Z).
  { destruct (Z_le_gt_dec e 0) as [H|H]; [exact H|exfalso].
    assert (Hp : pow2 (- e) <= pow2 (-1)).
    { apply Qpower_le_compat_l; [lia | discriminate]. }
    change (pow2 (-1)) with (1 # 2) in Hp. change (pow2 52) with (4503599627370496 # 1) in Hlo.
    assert (Hzq : inject_Z z <= 9007199254740991).
    { change 9007199254740991 with (inject_Z 9007199254740991). rewrite <- Zle_Qle. lia. }
    rewrite <- Hx in Hzq.
    pose proof (pow2_pos (- e)) as Hc.
    set (c := pow2 (- e)) in *. clearbody c.
    assert (x * c <= 9007199254740991 * (1 # 2)).
    { apply Qmult_le_compat_nonneg; split; lra. }
    lra. }
  assert (Hy : x * pow2 (- e) == inject_Z (z * 2 ^ (- e))).
  { rewrite Hx, pow2_Z by lia. rewrite inject_Z_mult. reflexivity. }
  rewrite (nearest_even_comp _ _ Hy), nearest_even_integer, <- Hy, Hx.
  rewrite <- Qmult_assoc, (Qmult_comm (pow2 (- e))), pow2_inv. ring.
Qed.

Lemma round_integer z :
  (Z.abs z < 2 ^ 53)%Z -> round (inject_Z z) == inject_Z z.
Proof.
  intros Hz. unfold round. pose proof (Qred_correct (inject_Z z)) as Hr.
  pose proof (Qnum_sign (Qred (inject_Z z))) as Hs.
  set (x' := Qred (inject_Z z)) in *. clearbody x'.
  destruct (Qnum x').
  - rewrite <- Hr, Hs. reflexivity.
  - apply round_positive_integer; [exact Hr|].
    rewrite Hr in Hs. change 0 with (inject_Z 0) in Hs. rewrite <- Zlt_Qlt in Hs. lia.
  - rewrite Hr in Hs. change 0 with (inject_Z 0) in Hs. rewrite <- Zlt_Qlt in Hs.
    rewrite (round_positive_integer (- x') (- z)).
    + rewrite inject_Z_opp. ring.
    + rewrite Hr, inject_Z_opp. reflexivity.
    + lia.
Qed.

Lemma of_Z_exact z : (Z.abs z < 2 ^ 53)%Z -> of_Z z == inject_Z z.
Proof. apply round_integer. Qed.

End DoubleFacts.

(** [Double] and the Standard Library's binary64 give the same number for
    the interpolation from 0 at each of the 30 steps of the default playback
    rate, whatever the head value. *)
Example double_agrees_with_binary64 :
  forallb (fun head =>
             forallb (fun step =>
                        Binary64.same (Binary64.interpolation 0 head step 30)
                                      (Frames.interpolation 0 head step 30))
                     (map Z.of_nat (seq 0 30)))
          (map Z.of_nat (seq 0 256)) = true.
Proof. vm_compute. reflexivity. Qed.

(** The rounding of the operations shows in the stored bytes: 11/30 is the
    double just below it, so that 75 * (11/30) stays below 27.5 and is
    stored as 27, where the exact product rounds to 28. *)
Example double_rounding_shows :
  Frames.interpolate_value 0 (Some 75) 11 30 = 27
  /\ Recorder.scale (Double.div (Double.of_Z 11) 30) [75] = [27]
  /\ JS.Math_round (inject_Z 0 + inject_Z (75 - 0) * (inject_Z 11 / inject_Z 30))%Q = 28.
Proof. vm_compute. repeat split. Qed.

(** ** C5: the cross-fade values *)


Lemma Qabs_mult_bound (a b A B : Q) :
  (Qabs a <= A -> Qabs b <= B -> Qabs (a * b) <= A * B)%Q.
Proof.
  intros Ha Hb. rewrite Qabs_Qmult.
  apply Qmult_le_compat_nonneg; split; auto using Qabs_nonneg.
Qed.

Lemma inject_Z_sub x y : inject_Z (x - y) = (inject_Z x - inject_Z y)%Q.
Proof. unfold Z.sub, Qminus. rewrite inject_Z_plus, inject_Z_opp. reflexivity. Qed.

Lemma inject_Z_byte z : 0 <= z <= 255 -> (0 <= inject_Z z <= 255)%Q.
Proof.
  intros H. change 0%Q with (inject_Z 0). change 255%Q with (inject_Z 255).
  rewrite <- !Zle_Qle. exact H.
Qed.

Lemma quotient_unit s t :
  0 <= s <= t -> 0 < t ->
  (0 <= inject_Z s / inject_Z t <= 1
   /\ inject_Z s / inject_Z t * inject_Z t == inject_Z s)%Q.
Proof.
  intros Hs Ht.
  assert (HT : (0 < inject_Z t)%Q) by (change 0%Q with (inject_Z 0); rewrite <- Zlt_Qlt; lia).
  assert (HS : (0 <= inject_Z s)%Q) by (change 0%Q with (inject_Z 0); rewrite <- Zle_Qle; lia).
  assert (HST : (inject_Z s <= inject_Z t)%Q) by (rewrite <- Zle_Qle; lia).
  repeat split.
  - apply Qle_shift_div_l; [exact HT|]. lra.
  - apply Qle_shift_div_r; [exact HT|]. lra.
  - field. intros H. rewrite H in HT. discriminate.
Qed.

(** The double that [interpolate_value] rounds lies within [2^-43] of the
    exact value of the interpolation. *)
Lemma interpolation_error a b s t :
  0 <= a <= 255 -> 0 <= b <= 255 -> 0 <= s <= t -> 0 < t < 2 ^ 53 ->
  (Qabs (Frames.interpolation a b s t
         - (inject_Z a + inject_Z (b - a) * (inject_Z s / inject_Z t)))
   <= Double.pow2 (-43))%Q.
Proof.
  intros Ha Hb Hs Ht.
  destruct (quotient_unit s t Hs ltac:(lia)) as [[Hq0 Hq1] _].
  pose proof (inject_Z_byte a Ha) as HA. pose proof (inject_Z_byte b Hb) as HB.
  set (q := (inject_Z s / inject_Z t)%Q) in *.
  assert (Er : Double.div (Double.of_Z s) (Double.of_Z t) = Double.round q).
  { unfold Double.div. apply DoubleFacts.round_comp.
    rewrite !DoubleFacts.of_Z_exact by lia. reflexivity. }
  assert (Ed : (Double.sub (Double.of_Z b) (Double.of_Z a) == inject_Z (b - a))%Q).
  { unfold Double.sub. rewrite <- (DoubleFacts.round_integer (b - a)) by lia.
    assert (E : Double.round (Double.of_Z b - Double.of_Z a)
                = Double.round (inject_Z (b - a))).
    { apply DoubleFacts.round_comp. rewrite !DoubleFacts.of_Z_exact by lia.
      rewrite inject_Z_sub. reflexivity. }
    rewrite E. reflexivity. }
  assert (HD : (Qabs (inject_Z (b - a)) <= 255)%Q).
  { apply Qabs_Qle_condition. rewrite inject_Z_sub. lra. }
  set (D := inject_Z (b - a)) in *.
  assert (Ep : Double.mul (Double.sub (Double.of_Z b) (Double.of_Z a))
                 (Double.div (Double.of_Z s) (Double.of_Z t))
               = Double.round (D * Double.round q)).
  { unfold Double.mul. apply DoubleFacts.round_comp. rewrite Ed, Er. reflexivity. }
  assert (Ex : Frames.interpolation a b s t
               = Double.round (inject_Z a + Double.round (D * Double.round q))).
  { unfold Frames.interpolation, Double.add. apply DoubleFacts.round_comp.
    rewrite Ep, DoubleFacts.of_Z_exact by lia. reflexivity. }
  rewrite Ex. clear Ex Ep Ed Er.
  pose proof (DoubleFacts.round_error q) as Hr.
  rewrite (Qabs_pos q Hq0) in Hr.
  set (r := Double.round q) in *.
  pose proof (DoubleFacts.round_error (D * r)) as Hp.
  set (p := Double.round (D * r)) in *.
  pose proof (DoubleFacts.round_error (inject_Z a + p)) as Hx.
  set (x := Double.round (inject_Z a + p)) in *.
  set (A := inject_Z a) in *.
  change Double.epsilon with (1 # 9007199254740992)%Q in *.
  change (Double.pow2 (-43)) with (1 # 8796093022208)%Q.
  clearbody x p r q D A.
  assert (Hr' : (Qabs (r - q) <= 1 # 9007199254740992)%Q) by lra.
  assert (Hrb : (Qabs r <= 1 + (1 # 9007199254740992))%Q).
  { apply Qabs_Qle_condition. apply Qabs_Qle_condition in Hr'. lra. }
  pose proof (Qabs_mult_bound D r _ _ HD Hrb) as HDr.
  pose proof (Qabs_mult_bound D (r - q) _ _ HD Hr') as HDrq.
  assert (Hp' : (Qabs (p - D * r) <= 256 * (1 # 9007199254740992))%Q) by lra.
  assert (Hpb : (Qabs (A + p) <= 512)%Q).
  { apply Qabs_Qle_condition. apply Qabs_Qle_condition in Hp'.
    apply Qabs_Qle_condition in HDr. lra. }
  assert (Hx' : (Qabs (x - (A + p)) <= 512 * (1 # 9007199254740992))%Q) by lra.
  apply Qabs_Qle_condition. apply Qabs_Qle_condition in Hx'.
  apply Qabs_Qle_condition in Hp'. apply Qabs_Qle_condition in HDrq.
  lra.
Qed.

(** A strict inequality between integers up to less than one unit. *)
Lemma Zle_of_Qlt_succ n m : (inject_Z n < inject_Z m + 1)%Q -> n <= m.
Proof.
  intros H. change 1%Q with (inject_Z 1) in H.
  rewrite <- inject_Z_plus, <- Zlt_Qlt in H. lia.
Qed.

(** What [Math.round] makes of that double, for byte values and a step
    [s] of [t] steps: the tail value at step 0, a value between the tail and
    the head value, within [|b - a| * (t - s) / t + 1/2] of the head value,
    and not past the middle (up to rounding) in the first half of the
    steps. *)
Lemma interpolation_rounds a b s t :
  0 <= a <= 255 -> 0 <= b <= 255 -> 0 <= s < t -> t < 2 ^ 42 ->
  let v := JS.Math_round (Frames.interpolation a b s t) in
  (s = 0 -> v = a)
  /\ Z.min a b <= v <= Z.max a b
  /\ 2 * t * Z.abs (v - b) <= 2 * (t - s) * Z.abs (b - a) + t
  /\ (2 * s <= t -> Z.abs (b - a) - 1 <= 2 * Z.abs (v - b)).
Proof.
  intros Ha Hb Hs Ht v.
  pose proof (interpolation_error a b s t Ha Hb ltac:(lia) ltac:(lia)) as He.
  destruct (quotient_unit s t ltac:(lia) ltac:(lia)) as [[Hq0 Hq1] Hq].
  pose proof (inject_Z_byte a Ha) as HA. pose proof (inject_Z_byte b Hb) as HB.
  assert (HT : (0 < inject_Z t < 4398046511104)%Q).
  { change 0%Q with (inject_Z 0). change 4398046511104%Q with (inject_Z (2 ^ 42)).
    rewrite <- !Zlt_Qlt. lia. }
  assert (HS : (0 <= inject_Z s)%Q).
  { change 0%Q with (inject_Z 0). rewrite <- Zle_Qle. lia. }
  pose proof (Qfloor_le (Frames.interpolation a b s t + (1 # 2))) as Hv1.
  pose proof (Qlt_floor (Frames.interpolation a b s t + (1 # 2))) as Hv2.
  fold (JS.Math_round (Frames.interpolation a b s t)) in Hv1, Hv2. fold v in Hv1, Hv2.
  rewrite inject_Z_plus in Hv2. change (inject_Z 1) with 1%Q in Hv2.
  apply Qabs_Qle_condition in He. change (Double.pow2 (-43)) with (1 # 8796093022208)%Q in He.
  rewrite inject_Z_sub in He.
  set (x := Frames.interpolation a b s t) in *.
  set (q := (inject_Z s / inject_Z t)%Q) in *.
  set (A := inject_Z a) in *. set (B := inject_Z b) in *.
  set (S := inject_Z s) in *. set (T := inject_Z t) in *. set (V := inject_Z v) in *.
  (* the exact value lies between A and B *)
  assert (Hbetween : (Qmin A B <= A + (B - A) * q <= Qmax A B)%Q).
  { destruct (Qlt_le_dec A B) as [H|H].
    - rewrite (proj2 (Q.min_l_iff A B)), (proj2 (Q.max_r_iff A B)) by lra.
      assert (0 <= (B - A) * q <= (B - A) * 1)%Q.
      { split; [apply Qmult_le_0_compat; lra|].
        apply Qmult_le_compat_nonneg; split; lra. }
      lra.
    - rewrite (proj2 (Q.min_r_iff A B)), (proj2 (Q.max_l_iff A B)) by lra.
      assert (0 <= (A - B) * q <= (A - B) * 1)%Q.
      { split; [apply Qmult_le_0_compat; lra|].
        apply Qmult_le_compat_nonneg; split; lra. }
      lra. }
  (* T times the exact value *)
  assert (HTx : (T * (A + (B - A) * q) == T * A + (B - A) * S)%Q).
  { rewrite <- Hq. ring. }
  assert (HTV1 : (T * V <= T * (A + (B - A) * q + (1 # 8796093022208) + (1 # 2)))%Q).
  { apply Qmult_le_l; lra. }
  assert (HTV2 : (T * (A + (B - A) * q - (1 # 8796093022208) - (1 # 2)) <= T * V)%Q).
  { apply Qmult_le_l; lra. }
  assert (G1 : Z.min a b <= v <= Z.max a b).
  { destruct (Z_lt_le_dec a b) as [H|H].
    - rewrite Z.min_l, Z.max_r by lia.
      assert (A <= B)%Q by (unfold A, B; rewrite <- Zle_Qle; lia).
      rewrite (proj2 (Q.min_l_iff A B)), (proj2 (Q.max_r_iff A B)) in Hbetween by lra.
      split.
      + apply Zle_of_Qlt_succ. fold A V. lra.
      + apply Zle_of_Qlt_succ. fold B V. lra.
    - rewrite Z.min_r, Z.max_l by lia.
      assert (B <= A)%Q by (unfold A, B; rewrite <- Zle_Qle; lia).
      rewrite (proj2 (Q.min_r_iff A B)), (proj2 (Q.max_l_iff A B)) in Hbetween by lra.
      split.
      + apply Zle_of_Qlt_succ. fold B V. lra.
      + apply Zle_of_Qlt_succ. fold A V. lra. }
  split; [|split; [exact G1|split]].
  - intros ->.
    assert (Hq' : (q == 0)%Q) by (unfold q; reflexivity).
    rewrite Hq' in He.
    apply Z.le_antisymm; apply Zle_of_Qlt_succ; fold A V; lra.
  - destruct (Z_lt_le_dec a b) as [H|H].
    + rewrite (Z.abs_neq (v - b)), (Z.abs_eq (b - a)) by lia.
      enough (2 * t * b - (2 * (t - s) * (b - a) + t) <= 2 * t * v) by lia.
      apply Zle_of_Qlt_succ.
      rewrite !inject_Z_sub, !inject_Z_plus, !inject_Z_mult, !inject_Z_sub.
      fold A B S T V. change (inject_Z 2) with 2%Q.
      lra.
    + rewrite (Z.abs_eq (v - b)), (Z.abs_neq (b - a)) by lia.
      enough (2 * t * v <= 2 * t * b + (2 * (t - s) * (- (b - a)) + t)) by lia.
      apply Zle_of_Qlt_succ.
      rewrite !inject_Z_plus, !inject_Z_mult, !inject_Z_sub, !inject_Z_opp, !inject_Z_sub.
      fold A B S T V. change (inject_Z 2) with 2%Q.
      lra.
  - intros Hhalf.
    assert (Hqh : (q <= 1 # 2)%Q).
    { unfold q. apply Qle_shift_div_r; [lra|].
      assert (2 * S <= T)%Q.
      { unfold S, T. change 2%Q with (inject_Z 2). rewrite <- inject_Z_mult, <- Zle_Qle. lia. }
      lra. }
    destruct (Z_lt_le_dec a b) as [H|H].
    + rewrite (Z.abs_neq (v - b)), (Z.abs_eq (b - a)) by lia.
      assert (A <= B)%Q by (unfold A, B; rewrite <- Zle_Qle; lia).
      assert ((B - A) * q <= (B - A) * (1 # 2))%Q.
      { apply Qmult_le_compat_nonneg; split; lra. }
      enough (2 * v <= b + a + 1) by lia.
      apply Zle_of_Qlt_succ.
      rewrite !inject_Z_plus, !inject_Z_mult. fold A B V.
      change (inject_Z 2) with 2%Q. change (inject_Z 1) with 1%Q. lra.
    + rewrite (Z.abs_eq (v - b)), (Z.abs_neq (b - a)) by lia.
      assert (B <= A)%Q by (unfold A, B; rewrite <- Zle_Qle; lia).
      assert ((A - B) * q <= (A - B) * (1 # 2))%Q.
      { apply Qmult_le_compat_nonneg; split; lra. }
      enough (b + a - 1 <= 2 * v) by lia.
      apply Zle_of_Qlt_succ.
      rewrite !inject_Z_sub, !inject_Z_plus, !inject_Z_mult. fold A B V.
      change (inject_Z 2) with 2%Q. change (inject_Z 1) with 1%Q. lra.
Qed.






(** ** C8: the sort of the loaded packets *)

Lemma string_compare_refl (a : string) : String.compare a a = Eq.
Proof.
  induction a as [|c a IH]; simpl; [reflexivity|].
  unfold Ascii.compare. rewrite N.compare_refl. exact IH.
Qed.

Lemma string_compare_lt_trans :
  forall a b c : string,
    String.compare a b = Lt -> String.compare b c = Lt -> String.compare a c = Lt.
Proof.
  induction a as [|x a IH]; intros [|y b] [|z c]; simpl; try congruence.
  unfold Ascii.compare.
  destruct (N.compare_spec (N_of_ascii x) (N_of_ascii y)) as [Hxy|Hxy|Hxy];
    destruct (N.compare_spec (N_of_ascii y) (N_of_ascii z)) as [Hyz|Hyz|Hyz];
    try congruence; intros Hab Hbc.
  - rewrite Hxy, Hyz, N.compare_refl. eauto.
  - rewrite Hxy. apply N.compare_lt_iff in Hyz. rewrite Hyz. reflexivity.
  - rewrite <- Hyz. apply N.compare_lt_iff in Hxy. rewrite Hxy. reflexivity.
  - assert (H : (N_of_ascii x < N_of_ascii z)%N) by lia.
    apply N.compare_lt_iff in H. rewrite H. reflexivity.
Qed.

Lemma string_lt_asym (a b : string) :
  JS.string_lt a b = true -> JS.string_lt b a = false.
Proof.
  unfold JS.string_lt, String.ltb. rewrite (String.compare_antisym b a).
  destruct (String.compare a b); simpl; congruence.
Qed.

Lemma string_lt_total (a b : string) :
  JS.string_lt a b = false -> JS.string_lt b a = false -> a = b.
Proof.
  unfold JS.string_lt, String.ltb. rewrite (String.compare_antisym b a).
  destruct (String.compare a b) eqn:H; simpl; try congruence.
  intros _ _. apply String.compare_eq_iff. exact H.
Qed.

Lemma string_lt_trans (a b c : string) :
  JS.string_lt a b = true -> JS.string_lt b c = true -> JS.string_lt a c = true.
Proof.
  unfold JS.string_lt, String.ltb.
  destruct (String.compare a b) eqn:Hab; try congruence.
  destruct (String.compare b c) eqn:Hbc; try congruence.
  rewrite (string_compare_lt_trans a b c Hab Hbc). reflexivity.
Qed.

(** Not before, twice, is not before. *)
Lemma string_not_lt_trans (a b c : string) :
  JS.string_lt b a = false -> JS.string_lt c b = false -> JS.string_lt c a = false.
Proof.
  intros Hba Hcb.
  destruct (JS.string_lt c a) eqn:Hca; [|reflexivity].
  destruct (JS.string_lt a b) eqn:Hab.
  - rewrite (string_lt_trans c a b Hca Hab) in Hcb. discriminate.
  - rewrite (string_lt_total a b Hab Hba) in Hca. congruence.
Qed.

Lemma by_TS_negative (a b : Packet.t) :
  (Recorder.by_TS a b <? 0) = JS.string_lt (Packet.TS a) (Packet.TS b).
Proof.
  unfold Recorder.by_TS.
  destruct (JS.string_lt (Packet.TS a) (Packet.TS b)); reflexivity.
Qed.

Lemma not_before_trans : Relations_1.Transitive not_before.
Proof.
  intros a b c Hab Hbc. unfold not_before in *.
  exact (string_not_lt_trans _ _ _ Hab Hbc).
Qed.

Lemma insert_permutation (x : Packet.t) (l : list Packet.t) :
  Permutation (x :: l) (JS.insert Recorder.by_TS x l).
Proof.
  induction l as [|y l IH]; simpl; [reflexivity|].
  destruct (Recorder.by_TS x y <? 0); [reflexivity|].
  rewrite perm_swap. apply perm_skip. exact IH.
Qed.

Lemma insert_HdRel (x y : Packet.t) (l : list Packet.t) :
  not_before y x -> HdRel not_before y l ->
  HdRel not_before y (JS.insert Recorder.by_TS x l).
Proof.
  intros Hyx Hl. destruct l as [|z l]; simpl.
  - constructor. exact Hyx.
  - destruct (Recorder.by_TS x z <? 0); constructor; [exact Hyx|].
    inversion Hl. assumption.
Qed.

Lemma insert_sorted (x : Packet.t) (l : list Packet.t) :
  Sorted not_before l -> Sorted not_before (JS.insert Recorder.by_TS x l).
Proof.
  induction l as [|y l IH]; intros Hl; simpl.
  - repeat constructor.
  - rewrite by_TS_negative.
    destruct (JS.string_lt (Packet.TS x) (Packet.TS y)) eqn:Hxy.
    + constructor; [exact Hl|]. constructor. unfold not_before.
      apply string_lt_asym. exact Hxy.
    + inversion Hl as [|? ? Hsorted Hhd]; subst.
      constructor; [apply IH; exact Hsorted|].
      apply insert_HdRel; [exact Hxy|exact Hhd].
Qed.

(** An element no earlier than [x] does not have a timestamp that is
    earlier than that of [x]. *)
Lemma later_has_other_TS (x y z : Packet.t) :
  JS.string_lt (Packet.TS x) (Packet.TS y) = true ->
  not_before y z -> has_TS (Packet.TS x) z = false.
Proof.
  unfold not_before, has_TS. intros Hxy Hyz.
  destruct (String.eqb (Packet.TS z) (Packet.TS x)) eqn:E; [|reflexivity].
  apply String.eqb_eq in E. rewrite E in Hyz. congruence.
Qed.

Lemma insert_filter (ts : string) (x : Packet.t) (l : list Packet.t) :
  StronglySorted not_before l ->
  filter (has_TS ts) (JS.insert Recorder.by_TS x l)
  = (filter (has_TS ts) l ++ (if has_TS ts x then [x] else []))%list.
Proof.
  induction l as [|y l IH]; intros Hl; simpl; [reflexivity|].
  inversion Hl as [|? ? Hsorted Hall]; subst.
  rewrite by_TS_negative.
  destruct (JS.string_lt (Packet.TS x) (Packet.TS y)) eqn:Hxy.
  - cbn [filter].
    destruct (has_TS ts x) eqn:Hx; [|now rewrite app_nil_r].
    assert (Hts : ts = Packet.TS x).
    { unfold has_TS in Hx. apply String.eqb_eq in Hx. congruence. }
    subst ts.
    assert (Hy : has_TS (Packet.TS x) y = false).
    { apply (later_has_other_TS x y y Hxy). unfold not_before.
      destruct (JS.string_lt (Packet.TS y) (Packet.TS y)) eqn:E; [|reflexivity].
      pose proof (string_lt_asym _ _ E). congruence. }
    rewrite Hy.
    assert (Hnone : filter (has_TS (Packet.TS x)) l = []).
    { clear IH Hsorted Hl. induction l as [|z l IHl]; [reflexivity|].
      inversion Hall; subst. cbn [filter].
      rewrite (later_has_other_TS x y z Hxy) by assumption. auto. }
    rewrite Hnone. reflexivity.
  - cbn [filter]. rewrite (IH Hsorted).
    destruct (has_TS ts y); reflexivity.
Qed.

Lemma sort_from (l acc : list Packet.t) :
  Sorted not_before acc ->
  let sorted := fold_left (fun acc x => JS.insert Recorder.by_TS x acc) l acc in
  Sorted not_before sorted
  /\ Permutation (acc ++ l) sorted
  /\ forall ts, filter (has_TS ts) sorted
                = (filter (has_TS ts) acc ++ filter (has_TS ts) l)%list.
Proof.
  revert acc. induction l as [|x l IH]; intros acc Hacc; simpl.
  - rewrite app_nil_r. repeat split; auto. intros. now rewrite app_nil_r.
  - destruct (IH (JS.insert Recorder.by_TS x acc) (insert_sorted x acc Hacc))
      as [Hs [Hp Hf]].
    split; [exact Hs|]. split.
    + rewrite <- Hp. rewrite <- insert_permutation.
      rewrite <- Permutation_middle. reflexivity.
    + intros ts. rewrite Hf, insert_filter.
      * rewrite <- app_assoc. destruct (has_TS ts x); reflexivity.
      * apply Sorted_StronglySorted; [exact not_before_trans|exact Hacc].
Qed.

(** The sort of the player: ascending by [TS], a permutation, and stable. *)
Lemma sort_by_TS (l : list Packet.t) :
  Sorted not_before (JS.sort Recorder.by_TS l)
  /\ Permutation l (JS.sort Recorder.by_TS l)
  /\ forall ts, filter (has_TS ts) (JS.sort Recorder.by_TS l)
                = filter (has_TS ts) l.
Proof.
  destruct (sort_from l [] (Sorted_nil _)) as [Hs [Hp Hf]].
  repeat split; assumption.
Qed.

(** C8.  When [handleFileData] succeeds, the text was a JSON array, and
    [playerContent] holds the packets of its records after the first (the
    metadata), sorted: every packet is followed by one whose [TS] is not
    smaller, the sequence is a permutation of the packets in file order,
    and the packets of any one timestamp are in the order the file has
    them. *)
Theorem loaded_packets_are_sorted_stably :
  forall chunks st st',
    Recorder.handleFileData chunks st = Ok st' ->
    exists elements loaded content,
      Json.parse (String.concat "" chunks) = Ok (Json.JArr elements)
      /\ mapM as_Packet (tl elements) = Ok loaded
      /\ Recorder.playerContent st' = Some content
      /\ Sorted not_before content
      /\ Permutation loaded content
      /\ forall ts, filter (has_TS ts) content = filter (has_TS ts) loaded.
Proof.
  intros chunks st st' H. unfold Recorder.handleFileData in H.
  destruct (Json.parse (String.concat "" chunks)) as [data|e]; simpl in H;
    [|discriminate].
  destruct data as [| | | |elements|]; try discriminate.
  destruct (mapM as_Packet (tl elements)) as [loaded|e] eqn:Hloaded; simpl in H;
    [|discriminate].
  injection H as <-.
  exists elements, loaded, (JS.sort Recorder.by_TS loaded).
  destruct (sort_by_TS loaded) as [Hs [Hp Hf]].
  repeat split; assumption.
Qed.

(** ** JSON: [parse] reads back what [stringify] writes *)

Module JsonFacts.
Import Json.

Lemma string_app_assoc (a b c : string) : (a ++ b) ++ c = a ++ (b ++ c).
Proof. induction a as [|x a IH]; simpl; [reflexivity|now rewrite IH]. Qed.

Lemma string_length_app (a b : string) :
  String.length (a ++ b) = (String.length a + String.length b)%nat.
Proof. induction a as [|x a IH]; simpl; [reflexivity|now rewrite IH]. Qed.

Lemma parse_digits_string_of_uint (u : Decimal.uint) (rest : string) :
  ends_number rest = true ->
  Json.parse_digits (NilEmpty.string_of_uint u ++ rest) = (u, rest).
Proof.
  intros Hrest. induction u; simpl; try (rewrite IHu; reflexivity).
  destruct rest as [|c r]; [reflexivity|]. simpl in *.
  destruct (Json.digit_of c); [discriminate|reflexivity].
Qed.

Lemma to_uint_no_leading_zero (p : positive) (u : Decimal.uint) :
  Pos.to_uint p <> Decimal.D0 u.
Proof.
  intros H.
  assert (Hnorm : Decimal.unorm (Pos.to_uint p) = Pos.to_uint p).
  { rewrite <- DecimalPos.Unsigned.to_of, DecimalPos.Unsigned.of_to. reflexivity. }
  rewrite H in Hnorm. rewrite DecimalFacts.unorm_D0 in Hnorm.
  destruct u; [exact (DecimalPos.Unsigned.to_uint_nonzero p H)|..];
    match type of Hnorm with
    | Decimal.unorm ?d = _ =>
        assert (Hd : d <> Decimal.Nil) by discriminate;
        pose proof (DecimalFacts.nb_digits_unorm d Hd) as Hle;
        rewrite Hnorm in Hle; simpl in Hle; lia
    end.
Qed.

Lemma ends_number_no_fraction (rest : string) :
  ends_number rest = true -> Json.starts_fraction rest = false.
Proof.
  destruct rest as [|c r]; [reflexivity|]. unfold ends_number.
  destruct (Json.digit_of c); [discriminate|].
  now intros H%negb_true_iff.
Qed.

Lemma parse_number_canonical (u : Decimal.uint) (rest : string) :
  canonical u -> ends_number rest = true ->
  Json.parse_number (NilEmpty.string_of_uint u ++ rest)
    = Some (Z.of_int (Decimal.Pos u), rest)
  /\ Json.parse_number (String "-" (NilEmpty.string_of_uint u ++ rest))
     = Some (Z.of_int (Decimal.Neg u), rest).
Proof.
  intros Hu Hrest.
  pose proof (parse_digits_string_of_uint u rest Hrest) as Hdigits.
  pose proof (ends_number_no_fraction rest Hrest) as Hfrac.
  unfold Json.parse_number.
  destruct u as [|u'|u'|u'|u'|u'|u'|u'|u'|u'|u']; try contradiction;
    try (destruct u'; try contradiction);
    cbn [NilEmpty.string_of_uint String.append] in *;
    rewrite Hdigits, Hfrac; split; reflexivity.
Qed.

Lemma canonical_to_uint (p : positive) : canonical (Pos.to_uint p).
Proof.
  pose proof (DecimalPos.Unsigned.to_uint_nonnil p) as Hnil.
  pose proof (to_uint_no_leading_zero p) as Hzero.
  destruct (Pos.to_uint p) as [|u'|u'|u'|u'|u'|u'|u'|u'|u'|u']; simpl; auto.
  destruct (Hzero u' eq_refl).
Qed.

Lemma string_of_uint_nonnil (u : Decimal.uint) :
  u <> Decimal.Nil -> NilZero.string_of_uint u = NilEmpty.string_of_uint u.
Proof. destruct u; [congruence|reflexivity..]. Qed.

Lemma parse_number_num_to_string (n : Z) (rest : string) :
  ends_number rest = true ->
  Json.parse_number (JS.num_to_string n ++ rest) = Some (n, rest).
Proof.
  intros Hrest. unfold JS.num_to_string.
  rewrite <- (DecimalZ.of_to n) at 2.
  destruct n as [|p|p]; cbn [Z.to_int NilZero.string_of_int].
  - exact (proj1 (parse_number_canonical (Decimal.D0 Decimal.Nil) rest I Hrest)).
  - rewrite string_of_uint_nonnil by apply DecimalPos.Unsigned.to_uint_nonnil.
    exact (proj1 (parse_number_canonical _ rest (canonical_to_uint p) Hrest)).
  - rewrite string_of_uint_nonnil by apply DecimalPos.Unsigned.to_uint_nonnil.
    exact (proj2 (parse_number_canonical _ rest (canonical_to_uint p) Hrest)).
Qed.

Lemma parse_string_body_escape (c : ascii) (tail : string) :
  Json.parse_string_body (Json.escape c ++ tail)
  = match Json.parse_string_body tail with
    | Some (str, rest) => Some (String c str, rest)
    | None => None
    end.
Proof.
  destruct c as [[] [] [] [] [] [] [] []]; reflexivity.
Qed.

Lemma parse_string_body_quote (s rest : string) :
  Json.parse_string_body (Json.quote_body s ++ String Json.dquote rest)
  = Some (s, rest).
Proof.
  induction s as [|c s IH]; [reflexivity|].
  cbn [Json.quote_body]. rewrite string_app_assoc, parse_string_body_escape, IH.
  reflexivity.
Qed.

Lemma json_induction (P : json -> Prop) :
  P JNull -> (forall b, P (JBool b)) -> (forall n, P (JNum n)) ->
  (forall s, P (JStr s)) ->
  (forall elements, Forall P elements -> P (JArr elements)) ->
  (forall members, Forall (fun kv => P (snd kv)) members -> P (JObj members)) ->
  forall v, P v.
Proof.
  intros Hnull Hbool Hnum Hstr Harr Hobj.
  fix IH 1. intros [|b|n|s|elements|members].
  - exact Hnull.
  - apply Hbool.
  - apply Hnum.
  - apply Hstr.
  - apply Harr. induction elements as [|e l IHl]; constructor; [apply IH|exact IHl].
  - apply Hobj. induction members as [|[k e] l IHl]; constructor;
      [apply IH|exact IHl].
Qed.

Lemma skip_ws_starts_value (s : string) :
  starts_value s -> skip_ws s = s.
Proof. intros (c & r & -> & Hws & _). simpl. now rewrite Hws. Qed.

Lemma number_start (n : Z) (rest : string) :
  exists c r, JS.num_to_string n ++ rest = String c r
              /\ (c = "-"%char \/ digit_of c <> None).
Proof.
  unfold JS.num_to_string.
  destruct n as [|p|p]; cbn [Z.to_int NilZero.string_of_int].
  - exists "0"%char, rest. split; [reflexivity|right; discriminate].
  - pose proof (DecimalPos.Unsigned.to_uint_nonnil p) as Hnil.
    destruct (Pos.to_uint p); try congruence;
      eexists; eexists; (split; [reflexivity|right; discriminate]).
  - eexists; eexists. split; [reflexivity|left; reflexivity].
Qed.

Lemma parse_value_number (fuel : nat) (c : ascii) (r : string) :
  c = "-"%char \/ digit_of c <> None ->
  parse_value (S fuel) (String c r)
  = match parse_number (String c r) with
    | Some (n, rest) => Some (JNum n, rest)
    | None => None
    end
  /\ is_ws c = false /\ (c =? "]")%char = false.
Proof.
  intros [->|Hdigit]; [repeat split|].
  destruct c as [[] [] [] [] [] [] [] []];
    try (exfalso; apply Hdigit; reflexivity); repeat split.
Qed.

Lemma stringify_starts_value (v : json) (rest : string) :
  starts_value (stringify v ++ rest).
Proof.
  destruct v as [|[]|n|s|elements|members];
    try (eexists; eexists; split; [reflexivity|split; reflexivity]).
  destruct (number_start n rest) as (c & r & Heq & Hc).
  exists c, r. split; [exact Heq|].
  exact (proj2 (parse_value_number O c r Hc)).
Qed.

Lemma join_snoc (sep x y : string) (xs : list string) :
  join sep ((x :: xs) ++ [y]) = join sep (x :: xs) ++ sep ++ y.
Proof.
  revert x. induction xs as [|z xs IH]; intros x; [reflexivity|].
  change (x ++ sep ++ join sep ((z :: xs) ++ [y])
          = (x ++ sep ++ join sep (z :: xs)) ++ sep ++ y).
  rewrite IH, !string_app_assoc. reflexivity.
Qed.

Lemma string_app_nil_r (s : string) : s ++ "" = s.
Proof. induction s; simpl; congruence. Qed.

Lemma parse_elements_S (p : string -> option (json * string)) fuel s :
  parse_elements p (S fuel) s
  = match p s with
    | Some (v, r) =>
        match skip_ws r with
        | String c r' =>
            if (c =? ",")%char then
              match parse_elements p fuel r' with
              | Some (vs, rest) => Some (v :: vs, rest)
              | None => None
              end
            else if (c =? "]")%char then Some ([v], r')
            else None
        | EmptyString => None
        end
    | None => None
    end.
Proof. reflexivity. Qed.

Lemma parse_elements_join (p : string -> option (json * string))
  (elements : list json) :
  Forall (fun v => forall rest, ends_number rest = true ->
                                p (stringify v ++ rest) = Some (v, rest))
         elements ->
  forall v fuel rest,
    (List.length elements <= fuel)%nat ->
    (forall rest', ends_number rest' = true ->
                   p (stringify v ++ rest') = Some (v, rest')) ->
    parse_elements p (S fuel)
      (join "," (map stringify (v :: elements)) ++ String "]" rest)
    = Some (v :: elements, rest)
    /\ parse_elements p (S fuel) (join "," (map stringify (v :: elements)))
       = None.
Proof.
  induction 1 as [|e l He Hl IH]; intros v fuel rest Hfuel Hv.
  - cbn [map join parse_elements]. rewrite (Hv (String "]" rest) eq_refl).
    split; [reflexivity|].
    replace (p (stringify v)) with (p (stringify v ++ ""))
      by now rewrite string_app_nil_r.
    rewrite (Hv "" eq_refl). reflexivity.
  - destruct fuel as [|fuel]; [simpl in Hfuel; lia|].
    destruct (IH e fuel rest ltac:(simpl in Hfuel; lia) He) as [Hok Hnone].
    change (join "," (map stringify (v :: e :: l)))
      with (stringify v ++ String "," (join "," (map stringify (e :: l)))).
    rewrite string_app_assoc.
    change (String "," (join "," (map stringify (e :: l))) ++ String "]" rest)
      with (String "," (join "," (map stringify (e :: l)) ++ String "]" rest)).
    split.
    + rewrite parse_elements_S, (Hv (String "," _) eq_refl).
      cbn [skip_ws is_ws Ascii.eqb Bool.eqb orb]. cbv iota.
      rewrite Hok. reflexivity.
    + rewrite parse_elements_S, (Hv (String "," _) eq_refl).
      cbn [skip_ws is_ws Ascii.eqb Bool.eqb orb]. cbv iota.
      rewrite Hnone. reflexivity.
Qed.

Lemma parse_members_S (p : string -> option (json * string)) fuel s :
  parse_members p (S fuel) s
  = match skip_ws s with
    | String q r0 =>
        if (q =? dquote)%char then
          match parse_string_body r0 with
          | Some (key, r1) =>
              match skip_ws r1 with
              | String colon r2 =>
                  if (colon =? ":")%char then
                    match p r2 with
                    | Some (v, r) =>
                        match skip_ws r with
                        | String c r' =>
                            if (c =? ",")%char then
                              match parse_members p fuel r' with
                              | Some (ms, rest) => Some ((key, v) :: ms, rest)
                              | None => None
                              end
                            else if (c =? "}")%char then Some ([(key, v)], r')
                            else None
                        | EmptyString => None
                        end
                    | None => None
                    end
                  else None
              | EmptyString => None
              end
          | None => None
          end
        else None
    | EmptyString => None
    end.
Proof. reflexivity. Qed.

Lemma member_text_app (k : string) (v : json) (rest : string) :
  member_text (k, v) ++ rest
  = String dquote (quote_body k ++ String dquote (String ":" (stringify v ++ rest))).
Proof.
  unfold member_text, quote. cbn [fst snd String.append].
  rewrite !string_app_assoc. reflexivity.
Qed.

Lemma parse_members_join (p : string -> option (json * string))
  (members : list (string * json)) :
  Forall (fun kv => forall rest, ends_number rest = true ->
                      p (stringify (snd kv) ++ rest) = Some (snd kv, rest))
         members ->
  forall k v fuel rest,
    (List.length members <= fuel)%nat ->
    (forall rest', ends_number rest' = true ->
                   p (stringify v ++ rest') = Some (v, rest')) ->
    parse_members p (S fuel)
      (join "," (map member_text ((k, v) :: members)) ++ String "}" rest)
    = Some ((k, v) :: members, rest).
Proof.
  induction 1 as [|[k' e] l He Hl IH]; intros k v fuel rest Hfuel Hv.
  - cbn [map join]. rewrite parse_members_S, member_text_app.
    cbn [skip_ws is_ws Ascii.eqb Bool.eqb orb dquote]. cbv iota.
    rewrite parse_string_body_quote.
    cbn [skip_ws is_ws Ascii.eqb Bool.eqb orb]. cbv iota.
    rewrite (Hv (String "}" rest) eq_refl). reflexivity.
  - destruct fuel as [|fuel]; [simpl in Hfuel; lia|].
    pose proof (IH k' e fuel rest ltac:(simpl in Hfuel; lia) He) as Hok.
    change (join "," (map member_text ((k, v) :: (k', e) :: l)))
      with (member_text (k, v)
            ++ String "," (join "," (map member_text ((k', e) :: l)))).
    rewrite string_app_assoc.
    change (String "," (join "," (map member_text ((k', e) :: l))) ++ String "}" rest)
      with (String "," (join "," (map member_text ((k', e) :: l)) ++ String "}" rest)).
    rewrite parse_members_S, member_text_app.
    cbn [skip_ws is_ws Ascii.eqb Bool.eqb orb dquote]. cbv iota.
    rewrite parse_string_body_quote.
    cbn [skip_ws is_ws Ascii.eqb Bool.eqb orb]. cbv iota.
    rewrite (Hv (String "," _) eq_refl).
    cbn [skip_ws is_ws Ascii.eqb Bool.eqb orb]. cbv iota.
    rewrite Hok. reflexivity.
Qed.

Lemma parse_value_S fuel s :
  parse_value (S fuel) s
  = match skip_ws s with
    | EmptyString => None
    | String c r =>
        if (c =? "n")%char then parse_literal "null" JNull (String c r)
        else if (c =? "t")%char then parse_literal "true" (JBool true) (String c r)
        else if (c =? "f")%char then parse_literal "false" (JBool false) (String c r)
        else if (c =? dquote)%char then
          match parse_string_body r with
          | Some (str, rest) => Some (JStr str, rest)
          | None => None
          end
        else if (c =? "[")%char then
          match skip_ws r with
          | String c' r' =>
              if (c' =? "]")%char then Some (JArr [], r')
              else
                match parse_elements (parse_value fuel) (String.length r) r with
                | Some (vs, rest) => Some (JArr vs, rest)
                | None => None
                end
          | EmptyString => None
          end
        else if (c =? "{")%char then
          match skip_ws r with
          | String c' r' =>
              if (c' =? "}")%char then Some (JObj [], r')
              else
                match parse_members (parse_value fuel) (String.length r) r with
                | Some (ms, rest) => Some (JObj ms, rest)
                | None => None
                end
          | EmptyString => None
          end
        else
          match parse_number (String c r) with
          | Some (n, rest) => Some (JNum n, rest)
          | None => None
          end
    end.
Proof. reflexivity. Qed.

Lemma stringify_nonempty (v : json) : (1 <= String.length (stringify v))%nat.
Proof.
  destruct (stringify_starts_value v "") as (c & r & Heq & _).
  rewrite string_app_nil_r in Heq. rewrite Heq. simpl. lia.
Qed.

Lemma join_length {A : Type} (text : A -> string) (l : list A) :
  (forall a, 1 <= String.length (text a))%nat ->
  (List.length l <= String.length (join "," (map text l)))%nat.
Proof.
  intros Htext. induction l as [|a l IH]; [simpl; lia|].
  destruct l as [|b l].
  - simpl. apply Htext.
  - change (join "," (map text (a :: b :: l)))
      with (text a ++ String "," (join "," (map text (b :: l)))).
    rewrite string_length_app. cbn [String.length List.length] in *.
    pose proof (Htext a). lia.
Qed.

Lemma member_text_nonempty (kv : string * json) :
  (1 <= String.length (member_text kv))%nat.
Proof. unfold member_text, quote. simpl. lia. Qed.

Lemma depth_elements (elements : list json) (fuel : nat) :
  (fold_right (fun e acc => Nat.max (depth e) acc) O elements <= fuel)%nat ->
  Forall (fun e => (depth e <= fuel)%nat) elements.
Proof.
  induction elements as [|e l IH]; intros H; constructor; simpl in H; [lia|].
  apply IH. lia.
Qed.

Lemma depth_members (members : list (string * json)) (fuel : nat) :
  (fold_right (fun kv acc => Nat.max (depth (snd kv)) acc) O members <= fuel)%nat ->
  Forall (fun kv => (depth (snd kv) <= fuel)%nat) members.
Proof.
  induction members as [|e l IH]; intros H; constructor; simpl in H; [lia|].
  apply IH. lia.
Qed.

(** The parser reads back what [stringify] writes, whatever follows that
    cannot continue a number. *)
Lemma parse_value_stringify :
  forall v fuel, (depth v <= fuel)%nat -> parses_back fuel v.
Proof.
  induction v as [|b|n|s|elements IH|members IH] using json_induction;
    intros [|fuel] Hfuel rest Hrest; try (simpl in Hfuel; lia).
  - reflexivity.
  - destruct b; reflexivity.
  - destruct (number_start n rest) as (c & r & Heq & Hc).
    cbn [stringify]. rewrite Heq.
    rewrite (proj1 (parse_value_number fuel c r Hc)), <- Heq.
    rewrite (parse_number_num_to_string n rest Hrest). reflexivity.
  - cbn [stringify]. unfold quote. cbn [String.append]. rewrite string_app_assoc.
    rewrite parse_value_S.
    cbn [skip_ws is_ws Ascii.eqb Bool.eqb orb dquote String.append]. cbv iota.
    rewrite parse_string_body_quote. reflexivity.
  - cbn [stringify depth] in *. apply le_S_n in Hfuel.
    apply depth_elements in Hfuel.
    destruct elements as [|v l]; [reflexivity|].
    assert (Hall : Forall (parses_back fuel) (v :: l)).
    { clear - IH Hfuel. induction IH; inversion Hfuel; subst; constructor; auto. }
    inversion Hall as [|? ? Hv Hl]; subst.
    cbn [String.append]. rewrite string_app_assoc. cbn [String.append].
    rewrite parse_value_S.
    cbn [skip_ws is_ws Ascii.eqb Bool.eqb orb dquote]. cbv iota.
    assert (Hstart : starts_value
                       (join "," (map stringify (v :: l)) ++ String "]" rest)).
    { destruct l; [apply stringify_starts_value|].
      change (join "," (map stringify (v :: j :: l)))
        with (stringify v ++ String "," (join "," (map stringify (j :: l)))).
      rewrite string_app_assoc. apply stringify_starts_value. }
    rewrite (skip_ws_starts_value _ Hstart).
    destruct Hstart as (c & r & Heq & _ & Hc). rewrite Heq, Hc, <- Heq.
    rewrite string_length_app.
    pose proof (join_length stringify (v :: l) stringify_nonempty) as Hlen.
    cbn [String.length List.length] in *.
    destruct (String.length (join "," (map stringify (v :: l)))) as [|k] eqn:Hk;
      [lia|].
    rewrite Nat.add_succ_r. cbn [Nat.add].
    assert (Hl' : (List.length l <= S (k + String.length rest))%nat) by lia.
    rewrite (proj1 (parse_elements_join (parse_value fuel) l Hl v _ rest Hl' Hv)).
    reflexivity.
  - cbn [stringify depth] in *. apply le_S_n in Hfuel.
    apply depth_members in Hfuel.
    change (fun kv : string * json => quote (fst kv) ++ ":" ++ stringify (snd kv))
      with member_text.
    destruct members as [|[k v] l]; [reflexivity|].
    assert (Hall : Forall (fun kv => parses_back fuel (snd kv)) ((k, v) :: l)).
    { clear - IH Hfuel. induction IH; inversion Hfuel; subst; constructor; auto. }
    inversion Hall as [|? ? Hv Hl]; subst. cbn [snd] in Hv.
    cbn [String.append]. rewrite string_app_assoc. cbn [String.append].
    rewrite parse_value_S.
    cbn [skip_ws is_ws Ascii.eqb Bool.eqb orb dquote]. cbv iota.
    assert (Hstart : exists r, join "," (map member_text ((k, v) :: l))
                               ++ String "}" rest = String dquote r).
    { destruct l; eexists; cbn [map join]; unfold member_text at 1, quote;
        cbn [String.append]; reflexivity. }
    destruct Hstart as (r & Heq). rewrite Heq.
    cbn [skip_ws is_ws Ascii.eqb Bool.eqb orb dquote]. cbv iota. rewrite <- Heq.
    rewrite string_length_app.
    pose proof (join_length member_text ((k, v) :: l) member_text_nonempty) as Hlen.
    cbn [String.length List.length] in *.
    destruct (String.length (join "," (map member_text ((k, v) :: l))))
      as [|n] eqn:Hn; [lia|].
    rewrite Nat.add_succ_r. cbn [Nat.add].
    assert (Hl' : (List.length l <= S (n + String.length rest))%nat) by lia.
    rewrite (parse_members_join (parse_value fuel) l Hl k v _ rest Hl' Hv).
    reflexivity.
Qed.

Lemma join_length_ge {A : Type} (text : A -> string) (l : list A) (a : A) :
  In a l -> (String.length (text a) <= String.length (join "," (map text l)))%nat.
Proof.
  induction l as [|b l IH]; intros Hin; [contradiction|].
  destruct l as [|c l].
  - destruct Hin as [->|[]]. simpl. lia.
  - change (join "," (map text (b :: c :: l)))
      with (text b ++ String "," (join "," (map text (c :: l)))).
    rewrite string_length_app. cbn [String.length].
    destruct Hin as [->|Hin]; [lia|]. specialize (IH Hin). lia.
Qed.

Lemma depth_le_length (v : json) : (depth v <= String.length (stringify v))%nat.
Proof.
  induction v as [|b|n|s|elements IH|members IH] using json_induction;
    try (cbn [depth]; apply stringify_nonempty).
  - change (depth (JArr elements))
      with (S (fold_right (fun e acc => Nat.max (depth e) acc) O elements)).
    change (stringify (JArr elements))
      with (String "[" (join "," (map stringify elements) ++ "]")).
    cbn [String.length]. rewrite string_length_app. cbn [String.length].
    assert (H : (fold_right (fun e acc => Nat.max (depth e) acc) O elements
                 <= String.length (join "," (map stringify elements)))%nat).
    { assert (Hin : forall e, In e elements ->
                (depth e <= String.length (join "," (map stringify elements)))%nat).
      { intros e He. rewrite Forall_forall in IH. specialize (IH e He).
        pose proof (join_length_ge stringify elements e He). lia. }
      clear IH. revert Hin.
      generalize (String.length (join "," (map stringify elements))).
      induction elements as [|e l IHl]; intros n Hin; simpl; [lia|].
      apply Nat.max_lub; [apply Hin; now left|].
      apply IHl. intros e' He'. apply Hin. now right. }
    apply le_n_S. etransitivity; [exact H|]. lia.
  - change (depth (JObj members))
      with (S (fold_right (fun kv acc => Nat.max (depth (snd kv)) acc) O members)).
    change (stringify (JObj members))
      with (String "{" (join "," (map member_text members) ++ "}")).
    cbn [String.length]. rewrite string_length_app. cbn [String.length].
    assert (H : (fold_right (fun kv acc => Nat.max (depth (snd kv)) acc) O members
                 <= String.length (join "," (map member_text members)))%nat).
    { assert (Hin : forall kv, In kv members ->
                (depth (snd kv)
                 <= String.length (join "," (map member_text members)))%nat).
      { intros kv Hkv. rewrite Forall_forall in IH. specialize (IH kv Hkv).
        pose proof (join_length_ge member_text members kv Hkv) as Hge.
        unfold member_text at 1 in Hge. rewrite !string_length_app in Hge. lia. }
      clear IH. revert Hin.
      generalize (String.length (join "," (map member_text members))).
      induction members as [|e l IHl]; intros n Hin; simpl; [lia|].
      apply Nat.max_lub; [apply Hin; now left|].
      apply IHl. intros e' He'. apply Hin. now right. }
    apply le_n_S. etransitivity; [exact H|]. lia.
Qed.

(** [JSON.parse] reads back what [JSON.stringify] wrote, with or without a
    line feed after it. *)
Lemma parse_stringify (v : json) :
  parse (stringify v) = Ok v /\ parse (stringify v ++ newline) = Ok v.
Proof.
  pose proof (depth_le_length v) as Hdepth.
  unfold parse. split.
  - assert (Hfuel : (depth v <= S (String.length (stringify v)))%nat) by lia.
    pose proof (parse_value_stringify v _ Hfuel "" eq_refl) as H.
    rewrite string_app_nil_r in H. rewrite H. reflexivity.
  - assert (Hfuel : (depth v <= S (String.length (stringify v ++ newline)))%nat)
      by (rewrite string_length_app; lia).
    rewrite (parse_value_stringify v _ Hfuel newline eq_refl). reflexivity.
Qed.

(** An array text without its closing bracket is not JSON. *)
Lemma parse_unclosed_array (v : json) (l : list json) :
  parse (String "[" (join "," (map stringify (v :: l)))) = Throw SyntaxError.
Proof.
  unfold parse.
  set (body := join "," (map stringify (v :: l))).
  remember (String.length (String "[" body)) as fuel eqn:Hfuel.
  rewrite parse_value_S.
  cbn [skip_ws is_ws Ascii.eqb Bool.eqb orb dquote]. cbv iota.
  assert (Hstart : starts_value body).
  { subst body. destruct l.
    - cbn [map join]. rewrite <- (string_app_nil_r (stringify v)).
      apply stringify_starts_value.
    - change (join "," (map stringify (v :: j :: l)))
        with (stringify v ++ String "," (join "," (map stringify (j :: l)))).
      apply stringify_starts_value. }
  rewrite (skip_ws_starts_value _ Hstart).
  destruct Hstart as (c & r & Heq & _ & Hc). rewrite Heq, Hc, <- Heq.
  assert (Hall : Forall (parses_back fuel) (v :: l)).
  { apply Forall_forall. intros e He. apply parse_value_stringify.
    pose proof (depth_le_length e) as Hd.
    pose proof (join_length_ge stringify (v :: l) e He) as Hge. fold body in Hge.
    subst fuel. cbn [String.length]. lia. }
  inversion Hall as [|? ? Hv Hl]; subst x l0.
  pose proof (join_length stringify (v :: l) stringify_nonempty) as Hlen.
  fold body in Hlen. cbn [List.length] in Hlen.
  destruct (String.length body) as [|k] eqn:Hk; [lia|].
  assert (Hl' : (List.length l <= k)%nat) by lia.
  pose proof (proj2 (parse_elements_join _ l Hl v k "" Hl' Hv)) as Hnone.
  fold body in Hnone. rewrite Hnone. reflexivity.
Qed.

End JsonFacts.

(** ** C1: what the recorder writes and what the loader makes of it *)

Lemma mapM_as_number (values : list Z) :
  mapM as_number (map Json.JNum values) = Ok values.
Proof. induction values as [|v l IH]; simpl; [reflexivity|now rewrite IH]. Qed.

Lemma as_Packet_toJSON (p : Packet.t) : as_Packet (Packet_toJSON p) = Ok p.
Proof.
  destruct p as [ts u s n d]. unfold as_Packet, Packet_toJSON. cbn.
  rewrite mapM_as_number. reflexivity.
Qed.

Lemma mapM_as_Packet (packets : list Packet.t) :
  mapM as_Packet (map Packet_toJSON packets) = Ok packets.
Proof.
  induction packets as [|p l IH]; [reflexivity|].
  cbn [map mapM]. rewrite as_Packet_toJSON, IH. reflexivity.
Qed.

(** The passthrough sends, it does not touch the stream or the flags. *)
Lemma passthrough_keeps_stream universe channels senders :
  forall st,
    let st' := fold_left (fun acc sender =>
                            if Sender.universe sender =? universe
                            then Recorder.transmitData (Some sender) channels acc
                            else acc) senders st in
    Recorder.gzip st' = Recorder.gzip st
    /\ Recorder.playing st' = Recorder.playing st
    /\ Recorder.recording st' = Recorder.recording st
    /\ Recorder.metadata st' = Recorder.metadata st.
Proof.
  induction senders as [|s l IH]; intros st; [repeat split|].
  cbn [fold_left]. destruct (IH (if Sender.universe s =? universe
                                 then Recorder.transmitData (Some s) channels st
                                 else st)) as (Hg & Hp & Hr & Hm).
  cbv zeta. rewrite Hg, Hp, Hr, Hm.
  destruct (Sender.universe s =? universe); repeat split.
Qed.

Lemma recording_text_snoc meta packets p :
  Recorder.recording_text meta packets ++ "," ++ Json.stringify (Packet_toJSON p)
  = Recorder.recording_text meta (packets ++ [p]).
Proof.
  unfold Recorder.recording_text. cbn [String.append]. f_equal.
  replace (Metadata_toJSON meta :: map Packet_toJSON (packets ++ [p]))
    with ((Metadata_toJSON meta :: map Packet_toJSON packets)
          ++ [Packet_toJSON p])%list
    by (rewrite map_app; reflexivity).
  rewrite map_app.
  change (map Json.stringify (Metadata_toJSON meta :: map Packet_toJSON packets))
    with (Json.stringify (Metadata_toJSON meta)
          :: map Json.stringify (map Packet_toJSON packets)).
  change (map Json.stringify [Packet_toJSON p])
    with [Json.stringify (Packet_toJSON p)].
  rewrite JsonFacts.join_snoc. reflexivity.
Qed.

(** One inbound packet while recording and not playing: its record is
    appended to the stream after a comma. *)
Lemma on_data_appends universe channels now st meta packets :
  Recorder.playing st = false ->
  Recorder.recording st = true ->
  Recorder.metadata st = Some meta ->
  Recorder.gzip st = Some (Recorder.recording_text meta packets) ->
  exists st',
    Recorder.on_data universe channels now st = Ok st'
    /\ Recorder.playing st' = false
    /\ Recorder.recording st' = true
    /\ Recorder.metadata st' = Some meta
    /\ Recorder.gzip st'
       = Some (Recorder.recording_text meta
                 (packets ++ [Recorder.captured (universe, channels, now)])).
Proof.
  intros Hplaying Hrecording Hmeta Hgzip.
  unfold Recorder.on_data.
  change (Recorder.playing (Recorder.checkForTimeout st))
    with (Recorder.playing st).
  change (Recorder.recording (Recorder.checkForTimeout st))
    with (Recorder.recording st).
  rewrite Hplaying, Hrecording. unfold Recorder.gzip_write.
  change (Recorder.gzip (Recorder.checkForTimeout st)) with (Recorder.gzip st).
  rewrite Hgzip. cbn [bind].
  match goal with
  | |- context [fold_left ?f ?l ?s] =>
      destruct (passthrough_keeps_stream universe channels l s)
        as (Hg & Hp & Hr & Hm)
  end.
  eexists. split; [reflexivity|].
  match goal with
  | |- context [if ?b then _ else _] => destruct b
  end.
  - rewrite Hg, Hp, Hr, Hm. cbn [Recorder.set_recording Recorder.checkForTimeout
      Recorder.set_timeout Recorder.playing Recorder.recording Recorder.metadata
      Recorder.gzip].
    rewrite Hplaying, Hmeta, <- recording_text_snoc. repeat split; assumption.
  - cbn [Recorder.set_recording Recorder.checkForTimeout
      Recorder.set_timeout Recorder.playing Recorder.recording Recorder.metadata
      Recorder.gzip].
    rewrite Hplaying, Hmeta, <- recording_text_snoc. repeat split; assumption.
Qed.

Lemma capture_appends inbound :
  forall st meta packets,
    Recorder.playing st = false ->
    Recorder.recording st = true ->
    Recorder.metadata st = Some meta ->
    Recorder.gzip st = Some (Recorder.recording_text meta packets) ->
    exists st',
      Recorder.capture inbound st = Ok st'
      /\ Recorder.playing st' = false
      /\ Recorder.recording st' = true
      /\ Recorder.metadata st' = Some meta
      /\ Recorder.gzip st'
         = Some (Recorder.recording_text meta
                   (packets ++ map Recorder.captured inbound)).
Proof.
  induction inbound as [|[[universe channels] now] more IH];
    intros st meta packets Hplaying Hrecording Hmeta Hgzip.
  - exists st. cbn [Recorder.capture map]. rewrite List.app_nil_r.
    repeat split; assumption.
  - destruct (on_data_appends universe channels now st meta packets
                Hplaying Hrecording Hmeta Hgzip)
      as (st1 & Hstep & Hp1 & Hr1 & Hm1 & Hg1).
    destruct (IH st1 meta _ Hp1 Hr1 Hm1 Hg1) as (st' & Hrun & Hp & Hr & Hm & Hg).
    exists st'. cbn [Recorder.capture]. rewrite Hstep. cbn [bind].
    split; [exact Hrun|]. repeat split; try assumption.
    rewrite Hg, <- List.app_assoc. reflexivity.
Qed.

Lemma record_starts now_name now_created st :
  exists meta,
    Recorder.metadata (Recorder.record now_name now_created st) = Some meta
    /\ Recorder.gzip (Recorder.record now_name now_created st)
       = Some (Recorder.recording_text meta [])
    /\ Recorder.recording (Recorder.record now_name now_created st) = true
    /\ Recorder.playing (Recorder.record now_name now_created st)
       = Recorder.playing st.
Proof. eexists. repeat split. Qed.

Lemma close_writes st text :
  Recorder.recording st = true ->
  Recorder.gzip st = Some text ->
  exists st',
    Recorder.close st = Ok st'
    /\ Recorder.recording st' = false
    /\ Recorder.gzip st' = Some ((text ++ "]") ++ Json.newline).
Proof.
  intros Hrecording Hgzip. unfold Recorder.close. rewrite Hrecording.
  cbn [negb]. unfold Recorder.gzip_write.
  cbn [Recorder.set_recording Recorder.gzip bind]. rewrite Hgzip.
  cbn [Recorder.set_recording Recorder.gzip bind].
  eexists. repeat split.
Qed.

Lemma recording_text_closed meta packets :
  (Recorder.recording_text meta packets ++ "]") ++ Json.newline
  = Json.stringify
      (Json.JArr (Metadata_toJSON meta :: map Packet_toJSON packets))
    ++ Json.newline.
Proof. reflexivity. Qed.

Lemma handleFileData_text text st :
  Recorder.handleFileData [text] st
  = (data <- Json.parse text ;;
     let st :=
       if Recorder.playing st
       then Recorder.blackout
              (Recorder.set_player None None (Recorder.set_playing false st))
       else st in
     match data with
     | Json.JArr elements =>
         content <- mapM as_Packet (tl elements) ;;
         Ok (Recorder.set_player (hd_error elements)
               (Some (JS.sort Recorder.by_TS content)) st)
     | _ => Throw TypeError
     end).
Proof. reflexivity. Qed.

(** A recording of three packets that was never closed, cut inside its last
    record and cut after it: the text starts with the bracket of one JSON
    array, [JSON.parse] throws on both cuts and [handleFileData] returns no
    record at all, although two, respectively three, records are complete. *)
Lemma truncated_recording_does_not_load :
  String.prefix "[" Scenario.unclosed_text = true
  /\ String.prefix Scenario.truncated_text Scenario.unclosed_text = true
  /\ String.length Scenario.unclosed_text = 302%nat
  /\ String.length Scenario.truncated_text = 293%nat
  /\ Json.parse Scenario.truncated_text = Throw SyntaxError
  /\ Recorder.handleFileData [Scenario.truncated_text] Scenario.idle
     = Throw SyntaxError
  /\ Json.parse Scenario.unclosed_text = Throw SyntaxError
  /\ Recorder.handleFileData [Scenario.unclosed_text] Scenario.idle
     = Throw SyntaxError.
Proof. repeat split; vm_compute; reflexivity. Qed.

(** C1, as the code has it.  A recording session (not playing) writes one
    top-level JSON array: [record()] writes the opening bracket and the
    metadata, every inbound packet a comma and its record, and only
    [close()] the closing bracket and a line feed.  The closed file parses
    to the metadata and all packets and loads to them (sorted); the text
    without the closing bracket, which is what is on disk when the process
    ends before [close()], is not JSON: [JSON.parse] throws and no record is
    returned. *)
Theorem recording_is_one_json_array :
  forall st now_name now_created inbound,
    Recorder.playing st = false ->
    exists st1 meta text,
      Recorder.capture inbound (Recorder.record now_name now_created st) = Ok st1
      /\ Recorder.metadata st1 = Some meta
      /\ Recorder.gzip st1 = Some (String "[" text)
      /\ Json.parse (String "[" text) = Throw SyntaxError
      /\ (forall player,
            Recorder.handleFileData [String "[" text] player = Throw SyntaxError)
      /\ exists st2,
           Recorder.close st1 = Ok st2
           /\ Recorder.gzip st2 = Some ((String "[" text ++ "]") ++ Json.newline)
           /\ Json.parse ((String "[" text ++ "]") ++ Json.newline)
              = Ok (Json.JArr (Metadata_toJSON meta
                                 :: map Packet_toJSON
                                        (map Recorder.captured inbound)))
           /\ forall player, exists st',
                Recorder.handleFileData
                  [(String "[" text ++ "]") ++ Json.newline] player = Ok st'
                /\ Recorder.playerMeta st' = Some (Metadata_toJSON meta)
                /\ Recorder.playerContent st'
                   = Some (JS.sort Recorder.by_TS (map Recorder.captured inbound)).
Proof.
  intros st now_name now_created inbound Hplaying.
  destruct (record_starts now_name now_created st)
    as (meta & Hm0 & Hg0 & Hr0 & Hp0).
  rewrite Hplaying in Hp0.
  destruct (capture_appends inbound _ meta [] Hp0 Hr0 Hm0 Hg0)
    as (st1 & Hrun & Hp1 & Hr1 & Hm1 & Hg1).
  cbn [app] in Hg1.
  exists st1, meta.
  eexists. split; [exact Hrun|]. split; [exact Hm1|]. split; [exact Hg1|].
  assert (Hopen : Json.parse (Recorder.recording_text meta
                                (map Recorder.captured inbound))
                  = Throw SyntaxError) by apply JsonFacts.parse_unclosed_array.
  split; [exact Hopen|].
  split.
  { intros player. rewrite handleFileData_text.
    unfold Recorder.recording_text in Hopen. rewrite Hopen. reflexivity. }
  destruct (close_writes st1 _ Hr1 Hg1) as (st2 & Hclose & _ & Hg2).
  exists st2. split; [exact Hclose|]. split; [exact Hg2|].
  assert (Hclosed :
            Json.parse ((Recorder.recording_text meta
                           (map Recorder.captured inbound) ++ "]")
                        ++ Json.newline)
            = Ok (Json.JArr (Metadata_toJSON meta
                               :: map Packet_toJSON
                                      (map Recorder.captured inbound)))).
  { rewrite recording_text_closed. apply JsonFacts.parse_stringify. }
  split; [exact Hclosed|].
  intros player. rewrite handleFileData_text.
  unfold Recorder.recording_text in Hclosed. rewrite Hclosed.
  cbn [bind tl hd_error].
  rewrite mapM_as_Packet. cbn [bind].
  eexists. split; [reflexivity|].
  destruct (Recorder.playing player); split; reflexivity.
Qed.

Lemma recording_is_one_json_array_witness :
  exists st1 meta text,
    Scenario.session = Ok st1
    /\ Recorder.metadata st1 = Some meta
    /\ Recorder.gzip st1 = Some (String "[" text)
    /\ Json.parse (String "[" text) = Throw SyntaxError
    /\ Json.parse ((String "[" text ++ "]") ++ Json.newline)
       = Ok (Json.JArr (Metadata_toJSON meta
                          :: map Packet_toJSON
                                 (map Recorder.captured Scenario.inbound_three))).
Proof.
  destruct (recording_is_one_json_array Scenario.idle 1712346460000
              1712346460001 Scenario.inbound_three eq_refl)
    as (st1 & meta & text & Hrun & Hmeta & Hgzip & Hopen & _
        & st2 & _ & _ & Hclosed & _).
  exists st1, meta, text. repeat split; assumption.
Defined.

(** ** C8: a loaded recording *)

Lemma loaded_packets_are_sorted_stably_witness :
  exists elements loaded content,
    Json.parse (String.concat "" [Scenario.closed_text]) = Ok (Json.JArr elements)
    /\ mapM as_Packet (tl elements) = Ok loaded
    /\ Recorder.playerContent Scenario.loaded_state = Some content
    /\ Sorted not_before content
    /\ Permutation loaded content
    /\ forall ts, filter (has_TS ts) content = filter (has_TS ts) loaded.
Proof.
  apply (loaded_packets_are_sorted_stably [Scenario.closed_text] Scenario.idle
           Scenario.loaded_state).
  vm_compute. reflexivity.
Defined.

(** The session of three packets, loaded: the two packets of 19:47:40.050
    come first, universe 2 before universe 1 as in the file, then the packet
    of 19:47:40.100 that was written first. *)
Example loaded_session_order :
  option_map (map (fun p => (Packet.TS p, Packet.U p)))
             (Recorder.playerContent Scenario.loaded_state)
  = Some [ ("2024-04-05T19:47:40.050Z", 2);
           ("2024-04-05T19:47:40.050Z", 1);
           ("2024-04-05T19:47:40.100Z", 1) ].
Proof. vm_compute. reflexivity. Qed.

(** ** The fades to and from black never brighten a channel

    [loop()] of [src/index.ts] scales the first packets by [i / steps] and
    the last by [1 - i / steps], in doubles.  Both factors lie between 0 and
    1 up to the rounding of the operations, and the rounded product of a byte
    with such a factor lies between 0 and the byte. *)

Lemma scaled_byte (value : Z) (factor : Q) :
  0 <= value <= 255 ->
  (- (1 # 1000000) <= factor <= 1 + (1 # 1000000))%Q ->
  0 <= JS.Math_round (Double.mul (Double.of_Z value) factor) <= value.
Proof.
  intros Hv Hf.
  pose proof (inject_Z_byte value Hv) as HV.
  assert (E : Double.mul (Double.of_Z value) factor
              = Double.round (inject_Z value * factor)).
  { unfold Double.mul. apply DoubleFacts.round_comp.
    rewrite DoubleFacts.of_Z_exact by lia. reflexivity. }
  rewrite E. clear E.
  pose proof (DoubleFacts.round_error (inject_Z value * factor)) as He.
  assert (Hprod : (Qabs (inject_Z value * factor) <= 255 * (1 + (1 # 1000000)))%Q).
  { apply Qabs_mult_bound; apply Qabs_Qle_condition; lra. }
  assert (Hlo : (- (1 # 1000000) * inject_Z value <= factor * inject_Z value)%Q).
  { apply Qmult_le_compat_r; lra. }
  assert (Hhi : (factor * inject_Z value <= (1 + (1 # 1000000)) * inject_Z value)%Q).
  { apply Qmult_le_compat_r; lra. }
  change Double.epsilon with (1 # 9007199254740992)%Q in He.
  apply Qabs_Qle_condition in He.
  set (x := Double.round (inject_Z value * factor)) in *.
  set (ay := Qabs (inject_Z value * factor)) in *.
  pose proof (Qfloor_le (x + (1 # 2))) as H1.
  pose proof (Qlt_floor (x + (1 # 2))) as H2.
  fold (JS.Math_round x) in H1, H2.
  rewrite inject_Z_plus in H2. change (inject_Z 1) with 1%Q in H2.
  clearbody x ay.
  split.
  - apply Zle_of_Qlt_succ. change (inject_Z 0) with 0%Q. lra.
  - apply Zle_of_Qlt_succ. lra.
Qed.

Lemma fade_factors (i : nat) (steps : Q) :
  (inject_Z (Z.of_nat i) < steps)%Q -> Z.of_nat i < 2 ^ 53 ->
  let fadeFactor := Double.div (Double.of_Z (Z.of_nat i)) steps in
  (- (1 # 1000000) <= fadeFactor <= 1 + (1 # 1000000))%Q
  /\ (- (1 # 1000000) <= Double.sub 1 fadeFactor <= 1 + (1 # 1000000))%Q.
Proof.
  intros Hi Hsmall fadeFactor.
  assert (HI : (0 <= inject_Z (Z.of_nat i))%Q).
  { change 0%Q with (inject_Z 0). rewrite <- Zle_Qle. lia. }
  assert (Hsteps : (0 < steps)%Q) by lra.
  assert (Hq : (0 <= inject_Z (Z.of_nat i) / steps <= 1)%Q).
  { split.
    - apply Qle_shift_div_l; [exact Hsteps|]. lra.
    - apply Qle_shift_div_r; [exact Hsteps|]. lra. }
  assert (E : fadeFactor = Double.round (inject_Z (Z.of_nat i) / steps)).
  { unfold fadeFactor, Double.div. apply DoubleFacts.round_comp.
    rewrite DoubleFacts.of_Z_exact by lia. reflexivity. }
  pose proof (DoubleFacts.round_error (inject_Z (Z.of_nat i) / steps)) as Hr.
  rewrite <- E in Hr. rewrite (Qabs_pos _ (proj1 Hq)) in Hr.
  pose proof (DoubleFacts.round_error (1 - fadeFactor)) as Hs.
  fold (Double.sub 1 fadeFactor) in Hs.
  change Double.epsilon with (1 # 9007199254740992)%Q in *.
  apply Qabs_Qle_condition in Hr.
  set (q := (inject_Z (Z.of_nat i) / steps)%Q) in *.
  clearbody fadeFactor q.
  assert (Hf : (- (1 # 1000000) <= fadeFactor <= 1 + (1 # 1000000))%Q) by lra.
  split; [exact Hf|].
  assert (Ha : (Qabs (1 - fadeFactor) <= 2)%Q) by (apply Qabs_Qle_condition; lra).
  apply Qabs_Qle_condition in Hs.
  set (a := Qabs (1 - fadeFactor)) in *. set (s := Double.sub 1 fadeFactor) in *.
  clearbody a s. lra.
Qed.

Lemma scale_dims (factor : Q) (channels : list Z) :
  (- (1 # 1000000) <= factor <= 1 + (1 # 1000000))%Q ->
  Forall (fun v => 0 <= v <= 255) channels ->
  Forall2 (fun v v' => 0 <= v' <= v) channels (Recorder.scale factor channels).
Proof.
  intros Hf. induction 1 as [|v channels Hv _ IH]; simpl; constructor; [|exact IH].
  pose proof (scaled_byte v factor Hv Hf) as H.
  unfold JS.to_uint8. rewrite Z.mod_small by lia. exact H.
Qed.

Lemma dimmed_bytes (p p' : Packet.t) :
  Forall (fun v => 0 <= v <= 255) (Packet.data p) -> dimmed p p' ->
  Forall (fun v => 0 <= v <= 255) (Packet.data p').
Proof.
  intros Hb (_ & _ & _ & _ & H). induction H as [|v v' l l' Hv _ IH]; constructor.
  - pose proof (Forall_inv Hb). cbv beta in *. lia.
  - apply IH. exact (Forall_inv_tail Hb).
Qed.

Lemma dimmed_again (p p' : Packet.t) (factor : Q) :
  Forall (fun v => 0 <= v <= 255) (Packet.data p) -> dimmed p p' ->
  (- (1 # 1000000) <= factor <= 1 + (1 # 1000000))%Q ->
  dimmed p (Packet.with_data p' (Recorder.scale factor (Packet.data p'))).
Proof.
  intros Hb Hd Hf. pose proof (dimmed_bytes p p' Hb Hd) as Hb'.
  destruct Hd as (Hts & Hu & Hs & Hn & Hdata).
  unfold dimmed, Packet.with_data. cbn [Packet.TS Packet.U Packet.S Packet.N Packet.data].
  repeat (split; [assumption|]).
  pose proof (scale_dims factor (Packet.data p') Hf Hb') as Hscaled.
  revert Hscaled. generalize (Recorder.scale factor (Packet.data p')).
  clear Hb Hb'. induction Hdata as [|v v' l l' Hv _ IH]; intros scaled Hscaled.
  - inversion Hscaled. constructor.
  - inversion Hscaled as [|? v'' ? l'' Hv' Hrest]; subst. constructor; [lia|].
    apply IH. exact Hrest.
Qed.

Lemma Forall2_replace_nth {A B : Type} (R : A -> B -> Prop) (l : list A) (l' : list B)
  (k : nat) (x : B) :
  Forall2 R l l' ->
  (forall a, nth_error l k = Some a -> R a x) ->
  Forall2 R l (replace_nth l' k x).
Proof.
  intros H. revert k. induction H as [|a b l l' Hab Hrest IH]; intros k Hx.
  - destruct k; constructor.
  - destruct k as [|k]; simpl.
    + constructor; [apply Hx; reflexivity|exact Hrest].
    + constructor; [exact Hab|]. apply IH. intros a' Ha'. apply Hx. exact Ha'.
Qed.

Lemma Forall2_nth {A B : Type} (R : A -> B -> Prop) (l : list A) (l' : list B) (k : nat) b :
  Forall2 R l l' -> nth_error l' k = Some b ->
  exists a, nth_error l k = Some a /\ R a b.
Proof.
  intros H. revert k. induction H as [|a0 b0 l l' Hab _ IH]; intros k Hk.
  - destruct k; discriminate.
  - destruct k as [|k]; simpl in *.
    + injection Hk as <-. eauto.
    + apply IH. exact Hk.
Qed.

Lemma update_data_dims (original buf buf' : list Packet.t) (index factor : Q) :
  Forall (fun p => Forall (fun v => 0 <= v <= 255) (Packet.data p)) original ->
  Forall2 dimmed original buf ->
  (- (1 # 1000000) <= factor <= 1 + (1 # 1000000))%Q ->
  Recorder.update_data buf index (Recorder.scale factor) = Ok buf' ->
  Forall2 dimmed original buf'.
Proof.
  intros Hbytes Hinv Hf H. unfold Recorder.update_data in H.
  destruct (JS.index buf index) as [packet|] eqn:Hidx; [|discriminate].
  injection H as <-.
  unfold JS.index in Hidx.
  destruct (Qeq_bool _ _ && (0 <=? Qfloor index)); [|discriminate].
  destruct (Forall2_nth _ _ _ _ _ Hinv Hidx) as (p & Hp & Hd).
  apply Forall2_replace_nth; [exact Hinv|].
  intros a Ha. assert (a = p) by congruence. subst a.
  apply dimmed_again; [|exact Hd|exact Hf].
  rewrite Forall_forall in Hbytes. apply Hbytes. eapply nth_error_In. exact Hp.
Qed.

Lemma dimmed_refl (tempBuffer : list Packet.t) :
  Forall (fun p => Forall (fun v => 0 <= v <= 255) (Packet.data p)) tempBuffer ->
  Forall2 dimmed tempBuffer tempBuffer.
Proof.
  induction 1 as [|p l Hp _ IH]; constructor; [|exact IH].
  unfold dimmed. repeat (split; [reflexivity|]).
  induction Hp as [|v d Hv _ IHd]; constructor; [lia|exact IHd].
Qed.

(** Whenever the fade goes through, the faded buffer has the packets of the
    buffer it was given, in their order, each with its timestamp and its
    address, and every channel of every packet holds a value between 0 and
    the byte that was recorded for it: the fade only ever dims. *)
Theorem fade_never_brightens :
  forall tempBuffer faded,
    Forall (fun p => Forall (fun v => 0 <= v <= 255) (Packet.data p)) tempBuffer ->
    Recorder.fade tempBuffer = Ok faded ->
    Forall2 dimmed tempBuffer faded.
Proof.
  intros tempBuffer faded Hbytes. unfold Recorder.fade.
  set (steps := Recorder.actualFadeSteps (List.length tempBuffer)).
  assert (Hsteps : (steps <= 300)%Q) by apply Q.le_min_l.
  assert (Hloop : forall (ixs : list nat) (buf : list Packet.t),
             Forall (fun i => (inject_Z (Z.of_nat i) < steps)%Q) ixs ->
             Forall2 dimmed tempBuffer buf ->
             fold_left (fun acc i =>
                          buf <- acc ;;
                          Recorder.fade_step steps (List.length tempBuffer) buf i)
                       ixs (Ok buf) = Ok faded ->
             Forall2 dimmed tempBuffer faded).
  { induction ixs as [|i ixs IH]; intros buf Hall Hinv Hfold.
    - simpl in Hfold. injection Hfold as <-. exact Hinv.
    - pose proof (Forall_inv Hall) as Hi. cbv beta in Hi.
      assert (Hsmall : Z.of_nat i < 2 ^ 53).
      { assert (H : (inject_Z (Z.of_nat i) < inject_Z 300)%Q)
          by (change (inject_Z 300) with 300%Q; lra).
        rewrite <- Zlt_Qlt in H. lia. }
      destruct (fade_factors i steps Hi Hsmall) as [Hin Hout].
      cbn [fold_left bind] in Hfold.
      destruct (Recorder.fade_step steps (List.length tempBuffer) buf i)
        as [buf2|e] eqn:Hstep; [|rewrite fold_fade_throw in Hfold; discriminate].
      apply (IH buf2 (Forall_inv_tail Hall)); [|exact Hfold].
      unfold Recorder.fade_step in Hstep.
      destruct (Recorder.update_data buf (inject_Z (Z.of_nat i)) _)
        as [buf1|e] eqn:H1; cbn [bind] in Hstep; [|discriminate].
      eapply (update_data_dims tempBuffer buf1 buf2); [exact Hbytes| |exact Hout|exact Hstep].
      eapply (update_data_dims tempBuffer buf buf1); [exact Hbytes|exact Hinv|exact Hin|exact H1]. }
  apply Hloop; [|apply dimmed_refl; exact Hbytes].
  apply Forall_forall. intros i Hi. apply in_seq in Hi.
  pose proof (Qceiling_lt steps) as Hc.
  assert (H : (inject_Z (Z.of_nat i) <= inject_Z (Qceiling steps - 1))%Q).
  { rewrite <- Zle_Qle. lia. }
  lra.
Qed.

Lemma fade_never_brightens_witness :
  Forall (fun p => Forall (fun v => 0 <= v <= 255) (Packet.data p)) Scenario.four_packets
  /\ exists faded,
       Recorder.fade Scenario.four_packets = Ok faded
       /\ Forall2 dimmed Scenario.four_packets faded.
Proof.
  assert (Hbytes : Forall (fun p => Forall (fun v => 0 <= v <= 255) (Packet.data p))
                     Scenario.four_packets).
  { repeat constructor; cbn; lia. }
  split; [exact Hbytes|].
  eexists. split; [vm_compute; reflexivity|].
  apply (fade_never_brightens Scenario.four_packets _ Hbytes). vm_compute. reflexivity.
Defined.

(** ** The second sort

    [handleFileData] sorts the packets it installs and [loop()] sorts
    [playerContent] again, with the same comparator. *)

Lemma insert_last (x : Packet.t) (acc : list Packet.t) :
  Forall (fun y => not_before y x) acc ->
  JS.insert Recorder.by_TS x acc = (acc ++ [x])%list.
Proof.
  induction acc as [|y acc IH]; intros H; simpl; [reflexivity|].
  rewrite by_TS_negative.
  pose proof (Forall_inv H) as Hy. unfold not_before in Hy. rewrite Hy.
  rewrite IH by exact (Forall_inv_tail H). reflexivity.
Qed.

Lemma sorted_prefix_not_after (acc l : list Packet.t) (x : Packet.t) :
  StronglySorted not_before (acc ++ x :: l) ->
  Forall (fun y => not_before y x) acc.
Proof.
  induction acc as [|y acc IH]; intros H; [constructor|].
  simpl in H. inversion H as [|? ? Hs Hall]; subst.
  constructor; [|exact (IH Hs)].
  rewrite Forall_forall in Hall. apply Hall. apply in_or_app. right. left. reflexivity.
Qed.

Lemma sort_sorted_from (l acc : list Packet.t) :
  StronglySorted not_before (acc ++ l) ->
  fold_left (fun acc x => JS.insert Recorder.by_TS x acc) l acc = (acc ++ l)%list.
Proof.
  revert acc. induction l as [|x l IH]; intros acc H; simpl.
  - now rewrite app_nil_r.
  - rewrite (insert_last x acc) by exact (sorted_prefix_not_after acc l x H).
    rewrite IH; rewrite <- app_assoc; [reflexivity|exact H].
Qed.

Lemma sort_of_sorted (l : list Packet.t) :
  Sorted not_before l -> JS.sort Recorder.by_TS l = l.
Proof.
  intros H. unfold JS.sort. apply (sort_sorted_from l []).
  apply Sorted_StronglySorted; [exact not_before_trans|exact H].
Qed.

(** The sort leaves a sorted sequence as it is: sorting twice is sorting
    once, so the sort of [loop()] keeps the order in which [handleFileData]
    installed the packets, also among packets of one timestamp. *)
Theorem second_sort_changes_nothing :
  forall l : list Packet.t,
    JS.sort Recorder.by_TS (JS.sort Recorder.by_TS l) = JS.sort Recorder.by_TS l.
Proof.
  intros l. apply sort_of_sorted. apply sort_by_TS.
Qed.

(** ** Senders and universes above 15

    [createSenders] gives a sender the universe within its subnet,
    [universe % 16], while a packet carries the universe as it was
    configured; the playback loop and the passthrough compare the two. *)

Lemma createSenders_universe (outs : list Output) (s : Sender.t) :
  In s (Recorder.createSenders outs) -> Sender.universe s < 16.
Proof.
  unfold Recorder.createSenders. intros H.
  apply in_flat_map in H as (output & _ & H).
  apply in_map_iff in H as (universe & <- & _). cbn [Sender.universe].
  unfold JS.rem.
  assert (H16 : 16 <> 0) by lia.
  pose proof (Z.rem_bound_abs universe 16 H16). lia.
Qed.

Lemma find_none {A : Type} (pred : A -> bool) (l : list A) :
  (forall a, In a l -> pred a = false) -> JS.find pred l = None.
Proof.
  unfold JS.find. induction l as [|a l IH]; intros H; simpl; [reflexivity|].
  rewrite (H a (or_introl eq_refl)). apply IH. intros b Hb. apply H. right. exact Hb.
Qed.

(** A packet of a universe of 16 or more finds no sender among those that
    [createSenders] made, whatever the outputs are: [find] returns undefined
    and the turn of the playback loop ends in the failed transmit that
    [transmitData] logs. *)
Theorem playback_reaches_no_sender_above_15 :
  forall tempBuffer ds st i processingTime packet,
    Recorder.senders st = Recorder.createSenders (Recorder.outputs st) ->
    Recorder.playing st = true ->
    nth_error tempBuffer i = Some packet ->
    16 <= Packet.U packet ->
    JS.find (Recorder.matches packet) (Recorder.senders st) = None
    /\ exists st' i' sleep,
         Recorder.loop_iteration tempBuffer ds st i processingTime = Recorder.Next st' i' sleep
         /\ Recorder.out st' = (Recorder.out st ++ [TransmitFailed])%list.
Proof.
  intros tempBuffer ds st i processingTime packet Hsenders Hplaying Hpacket HU.
  assert (Hfind : JS.find (Recorder.matches packet) (Recorder.senders st) = None).
  { apply find_none. intros s Hs. rewrite Hsenders in Hs.
    apply createSenders_universe in Hs. unfold Recorder.matches.
    replace (Sender.universe s =? Packet.U packet) with false
      by (symmetry; apply Z.eqb_neq; lia).
    reflexivity. }
  split; [exact Hfind|].
  unfold Recorder.loop_iteration. rewrite Hpacket, Hfind, Hplaying. cbn [negb].
  eexists _, _, _. split; [reflexivity|]. reflexivity.
Qed.

Lemma gzip_write_keeps text st st' :
  Recorder.gzip_write text st = Ok st' ->
  Recorder.out st' = Recorder.out st
  /\ Recorder.senders st' = Recorder.senders st.
Proof.
  unfold Recorder.gzip_write. destruct (Recorder.gzip st); [|discriminate].
  intros H. injection H as <-. split; reflexivity.
Qed.

Lemma passthrough_no_match universe channels (senders : list Sender.t) st :
  (forall s, In s senders -> Sender.universe s <> universe) ->
  fold_left (fun acc sender =>
               if Sender.universe sender =? universe
               then Recorder.transmitData (Some sender) channels acc
               else acc) senders st = st.
Proof.
  revert st. induction senders as [|s senders IH]; intros st H; simpl; [reflexivity|].
  replace (Sender.universe s =? universe) with false
    by (symmetry; apply Z.eqb_neq; apply H; left; reflexivity).
  apply IH. intros s' Hs'. apply H. right. exact Hs'.
Qed.

(** Nor does the passthrough of the listener reach a sender for an inbound
    packet of a universe of 16 or more: whatever the recorder is doing,
    nothing is sent to the outputs. *)
Theorem passthrough_reaches_no_sender_above_15 :
  forall universe channels now st st',
    Recorder.senders st = Recorder.createSenders (Recorder.outputs st) ->
    16 <= universe ->
    Recorder.on_data universe channels now st = Ok st' ->
    Recorder.out st' = Recorder.out st.
Proof.
  intros universe channels now st st' Hsenders HU H.
  unfold Recorder.on_data in H.
  set (st0 := Recorder.checkForTimeout st) in *.
  assert (H0 : Recorder.out st0 = Recorder.out st
               /\ Recorder.senders st0 = Recorder.senders st) by (split; reflexivity).
  destruct H0 as [Hout0 Hsend0].
  destruct (Recorder.playing st0); [injection H as <-; exact Hout0|].
  assert (Hnone : forall l st1, l = Recorder.senders st ->
            fold_left (fun acc sender =>
                         if Sender.universe sender =? universe
                         then Recorder.transmitData (Some sender) channels acc
                         else acc) l st1 = st1).
  { intros l st1 ->. apply passthrough_no_match. intros s Hs.
    rewrite Hsenders in Hs. apply createSenders_universe in Hs. lia. }
  destruct (Recorder.recording st0).
  - destruct (Recorder.gzip_write _ st0) as [st1|e] eqn:Hw; cbn [bind] in H; [|discriminate].
    apply gzip_write_keeps in Hw as [Hout1 Hsend1].
    rewrite (Hnone (Recorder.senders st1) st1) in H by congruence.
    destruct (Recorder.passthrough st1); injection H as <-; congruence.
  - cbn [bind] in H.
    rewrite (Hnone (Recorder.senders st0) st0) in H by congruence.
    destruct (Recorder.passthrough st0); injection H as <-; exact Hout0.
Qed.

Lemma playback_reaches_no_sender_above_15_witness :
  exists st' i' sleep,
    Recorder.loop_iteration [Scenario.at_universe_19; Scenario.at_universe_19] [] 
      Scenario.upper_playing 0 1 = Recorder.Next st' i' sleep
    /\ Recorder.out st' = [TransmitFailed].
Proof.
  destruct (playback_reaches_no_sender_above_15
              [Scenario.at_universe_19; Scenario.at_universe_19] []
              Scenario.upper_playing 0%nat 1 Scenario.at_universe_19
              eq_refl eq_refl eq_refl ltac:(cbn; lia))
    as [_ (st' & i' & sleep & Hstep & Hout)].
  exists st', i', sleep. split; [exact Hstep|exact Hout].
Defined.

Lemma passthrough_reaches_no_sender_above_15_witness :
  exists st',
    Recorder.on_data 19 [255] 1712346460000 Scenario.upper_idle = Ok st'
    /\ Recorder.out st' = [].
Proof.
  eexists. split; [reflexivity|].
  apply (passthrough_reaches_no_sender_above_15 19 [255] 1712346460000
           Scenario.upper_idle _ eq_refl ltac:(lia) eq_refl).
Defined.

(** ** The frames of a clip

    [prepareFrames] of the frame-based iteration cuts [playerContent] into
    chunks of as many packets as the clip has addresses. *)

Lemma slice_chunk {A : Type} (arr : list A) (i size : nat) :
  (i <= List.length arr)%nat ->
  JS.slice arr (Z.of_nat i) (Z.of_nat (i + size)) = firstn size (skipn i arr).
Proof.
  intros Hi. unfold JS.slice.
  replace (Z.of_nat i <? 0) with false by (symmetry; apply Z.ltb_ge; lia).
  replace (Z.of_nat (i + size) <? 0) with false by (symmetry; apply Z.ltb_ge; lia).
  rewrite (Z.min_l (Z.of_nat i)) by lia. rewrite Nat2Z.id.
  destruct (Nat.le_gt_cases (i + size) (List.length arr)) as [H|H].
  - rewrite Z.min_l by lia. f_equal. lia.
  - rewrite Z.min_r by lia.
    rewrite !firstn_all2; [reflexivity| |]; rewrite length_skipn; lia.
Qed.

Lemma prepareFrames_from_beyond fuel (playerContent : list Packet.t) size i :
  (List.length playerContent <= i)%nat ->
  Frames.prepareFrames_from fuel playerContent size i = [].
Proof.
  intros H. destruct fuel; [reflexivity|]. simpl.
  replace (i <? List.length playerContent)%nat with false
    by (symmetry; apply Nat.ltb_ge; exact H).
  reflexivity.
Qed.

Lemma prepareFrames_from_partitions (playerContent : list Packet.t) (size : nat) :
  (0 < size)%nat ->
  forall fuel i,
    (i <= List.length playerContent)%nat ->
    (List.length playerContent - i <= fuel)%nat ->
    List.concat (map Frames.packet (Frames.prepareFrames_from fuel playerContent size i))
    = skipn i playerContent
    /\ Forall (fun frame =>
                 (1 <= List.length (Frames.packet frame) <= size)%nat)
              (Frames.prepareFrames_from fuel playerContent size i).
Proof.
  intros Hsize. induction fuel as [|fuel IH]; intros i Hi Hfuel.
  - simpl. rewrite skipn_all2 by lia. split; [reflexivity|constructor].
  - cbn [Frames.prepareFrames_from].
    destruct (i <? List.length playerContent)%nat eqn:E.
    + apply Nat.ltb_lt in E. cbn [map List.concat Frames.packet].
      rewrite (slice_chunk playerContent i size Hi).
      destruct (Nat.le_gt_cases (i + size) (List.length playerContent)) as [H|H].
      * destruct (IH (i + size)%nat H ltac:(lia)) as [Hc Hs].
        rewrite Hc. split.
        -- rewrite <- (firstn_skipn size (skipn i playerContent)) at 2.
           rewrite skipn_skipn. do 2 f_equal. lia.
        -- constructor; [|exact Hs]. cbv beta. cbn [Frames.packet].
           rewrite length_firstn, length_skipn. lia.
      * rewrite prepareFrames_from_beyond by lia. cbn [map List.concat].
        rewrite app_nil_r. split.
        -- apply firstn_all2. rewrite length_skipn. lia.
        -- constructor; [|constructor]. cbv beta. cbn [Frames.packet].
           rewrite length_firstn, length_skipn. lia.
    + apply Nat.ltb_ge in E. rewrite skipn_all2 by lia. split; [reflexivity|constructor].
Qed.

Lemma Set_size_positive (key : string) (keys : list string) :
  (1 <= JS.Set_size (key :: keys))%nat.
Proof.
  unfold JS.Set_size.
  assert (H : In key (nodup string_dec (key :: keys))) by (apply nodup_In; left; reflexivity).
  destruct (nodup string_dec (key :: keys)); [contradiction|simpl; lia].
Qed.

(** The frames partition the clip: their packets, put one after the other,
    are [playerContent]; no frame is empty and none has more packets than
    the clip has addresses; every frame has delay 0. *)
Theorem prepareFrames_partitions_the_clip :
  forall playerContent : list Packet.t,
    let size := Frames.recordedUniverses playerContent in
    let frames := Frames.prepareFrames playerContent size in
    List.concat (map Frames.packet frames) = playerContent
    /\ Forall (fun frame => (1 <= List.length (Frames.packet frame) <= size)%nat) frames
    /\ Forall (fun frame => Frames.delay frame = 0) frames.
Proof.
  intros playerContent size frames.
  assert (Hdelay : Forall (fun frame => Frames.delay frame = 0) frames).
  { apply Forall_forall. intros frame Hin.
    exact (prepareFrames_from_delay _ _ _ _ _ Hin). }
  destruct playerContent as [|p rest].
  - repeat split; constructor.
  - assert (Hsize : (0 < size)%nat).
    { subst size. unfold Frames.recordedUniverses. cbn [map]. apply Set_size_positive. }
    destruct (prepareFrames_from_partitions (p :: rest) size Hsize
                (List.length (p :: rest)) 0%nat ltac:(lia) ltac:(lia)) as [Hc Hs].
    repeat split; assumption.
Qed.

(** ** The playback loop at the last packet, and without a stop

    At the last index the loop of [src/index.ts] sets [i] to 0 before it
    transmits, so the delay it then reads is that of the first packet. *)

Lemma delays_first (tempBuffer : list Packet.t) :
  tempBuffer <> [] -> nth_error (Recorder.delays tempBuffer) 0 = Some (Some 0).
Proof.
  intros H. unfold Recorder.delays. rewrite nth_error_mapi.
  destruct tempBuffer; [contradiction|reflexivity].
Qed.

(** The turn at the last index transmits the last packet, does not sleep
    (the delay of packet 0 is 0) and goes on at index 1: after the first
    pass the first packet is not played again. *)
Theorem loop_wraps_to_second_packet_without_sleep :
  forall tempBuffer st i processingTime packet,
    Recorder.playing st = true ->
    nth_error tempBuffer i = Some packet ->
    i = (List.length tempBuffer - 1)%nat ->
    0 <= processingTime ->
    Recorder.loop_iteration tempBuffer (Recorder.delays tempBuffer) st i processingTime
    = Recorder.Next
        (Recorder.transmitData (JS.find (Recorder.matches packet) (Recorder.senders st))
           (Packet.data packet) st)
        1 None.
Proof.
  intros tempBuffer st i processingTime packet Hplaying Hpacket Hlast Hpt.
  unfold Recorder.loop_iteration. rewrite Hpacket, Hplaying. cbn [negb].
  replace (i =? List.length tempBuffer - 1)%nat with true
    by (symmetry; apply Nat.eqb_eq; exact Hlast).
  rewrite delays_first by (intros ->; destruct i; discriminate).
  unfold Recorder.sleep_for.
  replace (2 <? 0 - processingTime) with false by (symmetry; apply Z.ltb_ge; lia).
  reflexivity.
Qed.

Lemma transmitData_keeps sender channels st :
  Recorder.playing (Recorder.transmitData sender channels st) = Recorder.playing st
  /\ List.length (Recorder.out (Recorder.transmitData sender channels st))
     = S (List.length (Recorder.out st)).
Proof.
  destruct sender; cbn [Recorder.transmitData Recorder.emit Recorder.playing Recorder.out];
    rewrite length_app; simpl; split; (reflexivity || lia).
Qed.

(** With two packets or more the loop never leaves by itself: as long as
    no callback arrives, every turn transmits once, the state stays playing
    and the index stays inside the buffer, from index 1 on. *)
Theorem playback_runs_until_stopped :
  forall tempBuffer ds script st i,
    (2 <= List.length tempBuffer)%nat ->
    Recorder.playing st = true ->
    (i < List.length tempBuffer)%nat ->
    Forall (fun t => Recorder.arrivals t = []) script ->
    exists st' i',
      Recorder.run tempBuffer ds script [] st i = Recorder.Running st' i' []
      /\ Recorder.playing st' = true
      /\ (1 <= i' < List.length tempBuffer \/ (script = [] /\ i' = i))%nat
      /\ List.length (Recorder.out st')
         = (List.length (Recorder.out st) + List.length script)%nat.
Proof.
  intros tempBuffer ds script. induction script as [|t script IH];
    intros st i Hlen Hplaying Hi Hquiet.
  - exists st, i. cbn [Recorder.run List.length]. repeat split; auto. 
  - pose proof (Forall_inv Hquiet) as Ht. pose proof (Forall_inv_tail Hquiet) as Hrest.
    cbv beta in Ht.
    cbn [Recorder.run]. unfold Recorder.loop_iteration.
    destruct (nth_error tempBuffer i) as [packet|] eqn:Hpacket;
      [|apply nth_error_None in Hpacket; lia].
    rewrite Hplaying. cbn [negb].
    set (i0 := if (i =? List.length tempBuffer - 1)%nat then 0%nat else i).
    assert (Hi0 : (1 <= S i0 < List.length tempBuffer)%nat).
    { subst i0. destruct (i =? List.length tempBuffer - 1)%nat eqn:E; [lia|].
      apply Nat.eqb_neq in E. lia. }
    set (st1 := Recorder.transmitData _ (Packet.data packet) st).
    destruct (transmitData_keeps (JS.find (Recorder.matches packet) (Recorder.senders st))
                (Packet.data packet) st) as [Hp1 Hout1].
    fold st1 in Hp1, Hout1.
    assert (Hnext : exists st' i',
               Recorder.run tempBuffer ds script [] st1 (S i0) = Recorder.Running st' i' []
               /\ Recorder.playing st' = true
               /\ (1 <= i' < List.length tempBuffer)%nat
               /\ List.length (Recorder.out st')
                  = (List.length (Recorder.out st1) + List.length script)%nat).
    { destruct (IH st1 (S i0) Hlen ltac:(congruence) ltac:(lia) Hrest)
        as (st' & i' & Hrun & Hp & Hi' & Hout).
      exists st', i'. repeat split; try assumption; destruct Hi' as [?|[_ ->]]; lia. }
    destruct Hnext as (st' & i' & Hrun & Hp & Hi' & Hout).
    exists st', i'.
    rewrite Ht. cbn [app].
    destruct (Recorder.sleep_for _ _); cbn [Recorder.run_callbacks];
      (split; [exact Hrun|]); (split; [exact Hp|]); (split; [left; exact Hi'|]);
      cbn [List.length]; lia.
Qed.

Lemma loop_wraps_to_second_packet_without_sleep_witness :
  Recorder.loop_iteration Scenario.four_packets (Recorder.delays Scenario.four_packets)
    Scenario.playing_four 3 1
  = Recorder.Next
      (Recorder.transmitData
         (JS.find (Recorder.matches (Scenario.u5 "1970-01-01T00:00:00.150Z" 100))
                  (Recorder.senders Scenario.playing_four))
         [100] Scenario.playing_four)
      1 None.
Proof.
  apply (loop_wraps_to_second_packet_without_sleep Scenario.four_packets
           Scenario.playing_four 3%nat 1 (Scenario.u5 "1970-01-01T00:00:00.150Z" 100)
           eq_refl eq_refl eq_refl ltac:(lia)).
Defined.

Lemma playback_runs_until_stopped_witness :
  let t := {| Recorder.processingTime := 1; Recorder.arrivals := [] |} in
  exists st' i',
    Recorder.run Scenario.four_packets (Recorder.delays Scenario.four_packets)
      [t; t; t; t; t] [] Scenario.playing_four 0 = Recorder.Running st' i' []
    /\ Recorder.playing st' = true
    /\ List.length (Recorder.out st') = 5%nat.
Proof.
  intros t.
  destruct (playback_runs_until_stopped Scenario.four_packets
              (Recorder.delays Scenario.four_packets) [t; t; t; t; t]
              Scenario.playing_four 0%nat
              ltac:(cbn; lia) eq_refl ltac:(cbn; lia)
              ltac:(repeat constructor))
    as (st' & i' & Hrun & Hplaying & _ & Hout).
  exists st', i'. split; [exact Hrun|]. split; [exact Hplaying|exact Hout].
Defined.

(** ** The passthrough and the subnet *)

Lemma passthrough_out universe channels (senders : list Sender.t) st :
  Recorder.out
    (fold_left (fun acc sender =>
                  if Sender.universe sender =? universe
                  then Recorder.transmitData (Some sender) channels acc
                  else acc) senders st)
  = (Recorder.out st
     ++ map (fun sender => Transmit sender channels)
            (filter (fun sender => Sender.universe sender =? universe) senders))%list.
Proof.
  revert st. induction senders as [|s senders IH]; intros st; cbn [fold_left filter].
  - cbn [map]. now rewrite app_nil_r.
  - rewrite IH. destruct (Sender.universe s =? universe).
    + cbn [Recorder.transmitData Recorder.emit Recorder.out map].
      rewrite <- app_assoc. reflexivity.
    + reflexivity.
Qed.

Lemma gzip_write_keeps_passthrough text st st' :
  Recorder.gzip_write text st = Ok st' ->
  Recorder.passthrough st' = Recorder.passthrough st.
Proof.
  unfold Recorder.gzip_write. destruct (Recorder.gzip st); [|discriminate].
  intros H. injection H as <-. reflexivity.
Qed.

(** The passthrough compares the inbound universe with the universe of a
    sender within its subnet and with nothing else: a packet that arrives on
    universe [u] goes to the sender of every configured universe that
    leaves the remainder [u] on division by 16, in whichever subnet that
    sender is. *)
Theorem passthrough_ignores_the_subnet :
  forall universe channels now st st' output configured,
    Recorder.senders st = Recorder.createSenders (Recorder.outputs st) ->
    Recorder.playing st = false ->
    Recorder.passthrough st = true ->
    In output (Recorder.outputs st) ->
    In configured (output_universe output) ->
    JS.rem configured 16 = universe ->
    Recorder.on_data universe channels now st = Ok st' ->
    In (Transmit (Sender.mk (output_ip output) universe (JS.floor_div configured 16) 0)
                 channels)
       (Recorder.out st').
Proof.
  intros universe channels now st st' output configured
         Hsenders Hplaying Hpass Hout Hconf Hrem H.
  assert (Hs : In (Sender.mk (output_ip output) universe (JS.floor_div configured 16) 0)
                  (Recorder.senders st)).
  { rewrite Hsenders. unfold Recorder.createSenders. apply in_flat_map.
    exists output. split; [exact Hout|]. apply in_map_iff.
    exists configured. split; [rewrite Hrem; reflexivity|exact Hconf]. }
  assert (Hsent : forall st1,
             Recorder.senders st1 = Recorder.senders st ->
             In (Transmit (Sender.mk (output_ip output) universe
                             (JS.floor_div configured 16) 0) channels)
                (Recorder.out
                   (fold_left (fun acc sender =>
                                 if Sender.universe sender =? universe
                                 then Recorder.transmitData (Some sender) channels acc
                                 else acc) (Recorder.senders st1) st1))).
  { intros st1 H1. rewrite passthrough_out. apply in_or_app. right.
    apply (in_map (fun sender => Transmit sender channels)).
    apply filter_In. split; [rewrite H1; exact Hs|].
    cbn [Sender.universe]. apply Z.eqb_refl. }
  unfold Recorder.on_data in H.
  set (st0 := Recorder.checkForTimeout st) in *.
  change (Recorder.playing st0) with (Recorder.playing st) in H. rewrite Hplaying in H.
  destruct (Recorder.recording st0).
  - destruct (Recorder.gzip_write _ st0) as [st1|e] eqn:Hw; cbn [bind] in H; [|discriminate].
    pose proof (gzip_write_keeps_passthrough _ _ _ Hw) as Hp1.
    apply gzip_write_keeps in Hw as [_ Hsend1].
    change (Recorder.passthrough st0) with (Recorder.passthrough st) in Hp1.
    rewrite Hp1, Hpass in H.
    pose proof (Hsent st1 Hsend1) as Hin.
    injection H as <-. exact Hin.
  - cbn [bind] in H.
    change (Recorder.passthrough st0) with (Recorder.passthrough st) in H.
    rewrite Hpass in H.
    pose proof (Hsent st0 eq_refl) as Hin.
    injection H as <-. exact Hin.
Qed.

Lemma passthrough_ignores_the_subnet_witness :
  exists st',
    Recorder.on_data 3 [255] 1712346460000 Scenario.upper_idle = Ok st'
    /\ In (Transmit (Sender.mk "192.168.2.22" 3 1 0) [255]) (Recorder.out st').
Proof.
  eexists. split; [reflexivity|].
  apply (passthrough_ignores_the_subnet 3 [255] 1712346460000 Scenario.upper_idle _
           {| output_ip := "192.168.2.22";
              output_universe := [10; 11; 12; 13; 14; 15; 16; 17; 18; 19] |} 19
           eq_refl eq_refl eq_refl).
  - left. reflexivity.
  - cbn. tauto.
  - reflexivity.
  - reflexivity.
Defined.

(** ** The frame-based iteration and universes above 15 *)

Lemma filter_none {A : Type} (pred : A -> bool) (l : list A) :
  (forall a, In a l -> pred a = false) -> filter pred l = [].
Proof.
  induction l as [|a l IH]; intros H; [reflexivity|].
  cbn [filter]. rewrite (H a (or_introl eq_refl)).
  apply IH. intros b Hb. apply H. right. exact Hb.
Qed.

(** [processFrame] has the same comparison of a sender's universe within
    its subnet with the universe a packet carries: a frame whose packets are
    all of universes of 16 or more is sent to no sender that [createSenders]
    made. *)
Theorem processFrame_reaches_no_sender_above_15 :
  forall outs frame,
    Forall (fun packet => 16 <= Packet.U packet) (Frames.packet frame) ->
    Frames.processFrame (Recorder.createSenders outs) frame = [].
Proof.
  intros outs frame H. unfold Frames.processFrame.
  induction H as [|packet packets Hp _ IH]; [reflexivity|].
  cbn [flat_map]. rewrite IH, app_nil_r.
  assert (Hnone : filter (Frames.matches packet) (Recorder.createSenders outs) = []).
  { apply filter_none. intros s Hs. apply createSenders_universe in Hs.
    unfold Frames.matches.
    replace (Sender.universe s =? Packet.U packet) with false
      by (symmetry; apply Z.eqb_neq; lia).
    reflexivity. }
  rewrite Hnone. reflexivity.
Qed.

Lemma processFrame_reaches_no_sender_above_15_witness :
  Frames.processFrame (Recorder.createSenders Scenario.upper_output)
    {| Frames.delay := 0; Frames.packet := [Scenario.at_universe_19] |} = [].
Proof.
  apply (processFrame_reaches_no_sender_above_15 Scenario.upper_output
           {| Frames.delay := 0; Frames.packet := [Scenario.at_universe_19] |}).
  repeat constructor. cbn. lia.
Defined.

(** ** A channel that does not change *)

(** Where the tail and the head packet hold the same byte, every step of
    the cross-fade stores that byte: the rounding of the doubles does not
    show. *)
Theorem interpolation_keeps_a_constant_channel :
  forall value step totalSteps,
    0 <= value <= 255 -> 0 <= step < totalSteps -> totalSteps < 2 ^ 42 ->
    Frames.interpolate_value value (Some value) step totalSteps = value.
Proof.
  intros value step totalSteps Hv Hs Ht.
  pose proof (interpolation_rounds value value step totalSteps Hv Hv Hs Ht)
    as (_ & Hbetween & _).
  rewrite Z.min_id, Z.max_id in Hbetween.
  unfold Frames.interpolate_value.
  replace (totalSteps =? 0) with false by (symmetry; apply Z.eqb_neq; lia).
  unfold JS.to_uint8. rewrite Z.mod_small by lia. lia.
Qed.

Lemma interpolation_keeps_a_constant_channel_witness :
  Frames.interpolate_value 75 (Some 75) 11 30 = 75.
Proof.
  apply (interpolation_keeps_a_constant_channel 75 11 30); lia.
Defined.
